(** * goredis: the RESP codec and the connection of conn.go

    A shallow embedding of [conn.go] (package msgredis): the frame codec
    ([writeLen], [writeString], [writeRequest], [readLine], [readResponse],
    [parseBulkString], [parseArray]), the request/response primitive [Call],
    the retry wrapper [CallN], pipelining ([PipeSend], [PipeExec]) and the
    transaction helpers ([MULTI], [TransSend], [TransExec], [Discard],
    [Watch]).

    Go values are embedded as follows.
    - [int], [int64]: [Z], with the 64-bit wrap-around written where the
      source computes ([wrap64]).
    - [string] and [[]byte]: [bytes], a list of 8-bit characters.
    - [error]: the inductive [error]; [nil] is [None].
    - [interface{}]: [value] for decoded replies and [arg] for request
      arguments; the nil interface and a nil slice stored in an interface are
      different values, as in Go.
    - [*Conn]: an address into the heap of connections of a [World].
    - a panic: the outcome [Panic]. *)

From Stdlib Require Import ZArith Ascii String List Lia Bool.
From stdpp Require Import base option list gmap.

Local Open Scope Z_scope.
Local Set Warnings "-register-all".

(** ** Bytes *)

Abbreviation bytes := (list ascii).

Definition B (s : string) : bytes := list_ascii_of_string s.

Definition CR : ascii := "013"%char.
Definition LF : ascii := "010"%char.
Definition CRLF : bytes := [CR; LF].

Definition len {A} (l : list A) : Z := Z.of_nat (length l).

Definition byte_of_Z (z : Z) : ascii := ascii_of_N (Z.to_N (z mod 256)).
Definition Z_of_byte (b : ascii) : Z := Z.of_N (N_of_ascii b).

Definition byte_eqb (a b : ascii) : bool := Ascii.eqb a b.

Definition max_int64 : Z := 2 ^ 63 - 1.
Definition min_int64 : Z := - 2 ^ 63.
Definition max_uint64 : Z := 2 ^ 64 - 1.

(** Two's complement wrap-around of a 64-bit signed result. *)
Definition wrap64 (z : Z) : Z := (z + 2 ^ 63) mod 2 ^ 64 - 2 ^ 63.

(** ** Constants of the package *)

Definition ConnectTimeout : Z := 60000000000.
Definition ReadTimeout : Z := 60000000000.
Definition WriteTimeout : Z := 60000000000.
Definition DefaultBufferSize : Z := 64.

Definition RetryWaitSeconds : Z := 2000000000.

Definition TypeError : ascii := "-"%char.
Definition TypeSimpleString : ascii := "+"%char.
Definition TypeBulkString : ascii := "$"%char.
Definition TypeIntegers : ascii := ":"%char.
Definition TypeArrays : ascii := "*"%char.

Definition CommonErrPrefix : bytes := B "CommonError:".

(** ** Errors *)

Inductive error : Type :=
| ErrNil
| ErrBadType
| ErrBadTcpConn
| ErrBadTerminator
| ErrResponse
| ErrNilPool
| ErrKeyNotExist
| ErrBadArgs
| ErrEmptyDB
| io_EOF
| io_ErrUnexpectedEOF
| net_Error (text : bytes)     (* an error reported by the socket *)
| errors_New (text : bytes).   (* a fresh errors.New(text) *)

(** The method [Error()] of an error value. *)
Definition Error (e : error) : bytes :=
  match e with
  | ErrNil => B "nil data return"
  | ErrBadType => B "invalid return type"
  | ErrBadTcpConn => B "invalid tcp conn"
  | ErrBadTerminator => B "invalid terminator"
  | ErrResponse => B "bad call"
  | ErrNilPool => B "conn not belongs to any pool"
  | ErrKeyNotExist => CommonErrPrefix ++ B "key not exist"
  | ErrBadArgs => CommonErrPrefix ++ B "request args invalid"
  | ErrEmptyDB => CommonErrPrefix ++ B "empty db"
  | io_EOF => B "EOF"
  | io_ErrUnexpectedEOF => B "unexpected EOF"
  | net_Error text => text
  | errors_New text => text
  end.

Definition net_ErrClosed : error :=
  net_Error (B "use of closed network connection").

(** ** package strings *)

Fixpoint HasPrefix (s prefix : bytes) : bool :=
  match prefix, s with
  | [], _ => true
  | _ :: _, [] => false
  | p :: prefix', c :: s' => byte_eqb p c && HasPrefix s' prefix'
  end.

Fixpoint Contains (s substr : bytes) : bool :=
  HasPrefix s substr ||
  match s with
  | [] => false
  | _ :: s' => Contains s' substr
  end.

(** ** package strconv *)

Inductive NumErr := ErrSyntax | ErrRange.

Definition isDigit (c : ascii) : bool :=
  (48 <=? Z_of_byte c) && (Z_of_byte c <=? 57).

(** The digit loop of [ParseUint(s, 10, 64)]: stops at the first byte that
    is not a digit and at the first step that leaves the 64-bit range. *)
Fixpoint ParseUint_loop (s : bytes) (n : Z) : Z + NumErr :=
  match s with
  | [] => inl n
  | c :: s' =>
      if isDigit c then
        let d := Z_of_byte c - 48 in
        if n >=? max_uint64 / 10 + 1 then inr ErrRange
        else
          let n1 := n * 10 + d in
          if n1 >? max_uint64 then inr ErrRange else ParseUint_loop s' n1
      else inr ErrSyntax
  end.

Definition ParseUint (s : bytes) : Z + NumErr :=
  match s with
  | [] => inr ErrSyntax
  | _ => ParseUint_loop s 0
  end.

(** [strconv.ParseInt(s, 10, 64)]. *)
Definition ParseInt (s : bytes) : Z + NumErr :=
  match s with
  | [] => inr ErrSyntax
  | c :: s' =>
      let neg := byte_eqb c "-"%char in
      let s1 := if byte_eqb c "+"%char || neg then s' else s in
      match ParseUint s1 with
      | inr ErrSyntax => inr ErrSyntax
      | inr ErrRange => inr ErrRange
      | inl un =>
          if negb neg && (un >=? 2 ^ 63) then inr ErrRange
          else if neg && (un >? 2 ^ 63) then inr ErrRange
          else inl (if neg then - un else un)
      end
  end.

(** The text of the [*NumError] that [ParseInt] reports.  [strconv.Quote]
    is rendered as the input between double quotes; its escapes are not
    reproduced. *)
Definition NumError_text (s : bytes) (e : NumErr) : bytes :=
  B "strconv.ParseInt: parsing " ++ ["034"%char] ++ s ++ ["034"%char] ++ B ": " ++
  match e with
  | ErrSyntax => B "invalid syntax"
  | ErrRange => B "value out of range"
  end.

(** The digit loop of [strconv.formatBits] in base ten, taken one digit a
    turn: [for u >= 10 { i--; a[i] = u%10 + '0'; u /= 10 }; i--; a[i] = u + '0'].
    [k] bounds the number of digits; a 64-bit value has at most twenty. *)
Fixpoint formatBits (k : nat) (u : Z) (a : bytes) : bytes :=
  match k with
  | O => a
  | S k' =>
      if u >=? 10 then formatBits k' (u / 10) (byte_of_Z (u mod 10 + 48) :: a)
      else byte_of_Z (u + 48) :: a
  end.

(** [strconv.AppendInt([]byte{}, n, 10)]. *)
Definition AppendInt (n : Z) : bytes :=
  if n <? 0 then "-"%char :: formatBits 20 (- n) [] else formatBits 20 n [].

(** ** Values carried by [interface{}] *)

(** A decoded reply.  [Nil] is the nil interface; [Slice None] is a nil
    [[]interface{}] stored in an interface, which Go does not equate with
    the nil interface. *)
Inductive value : Type :=
| Nil
| Int64 (n : Z)
| Bytes (b : bytes)
| Slice (l : option (list value)).

(** A request argument, by dynamic type.  A [float64] is carried as the
    text [strconv.AppendFloat(_, f, 'g', -1, 64)] gives for it, and a value
    of any other type as the text [fmt.Sprintf("%v", _)] gives for it. *)
Inductive arg : Type :=
| AInt (n : Z)
| AInt64 (n : Z)
| AFloat64 (text : bytes)
| AString (s : bytes)
| ABytes (b : bytes)
| ABool (b : bool)
| ANil
| AOther (text : bytes).

(** ** Outcomes and the state monad *)

Inductive Res (S A : Type) : Type :=
| Ok (a : A) (s : S)
| Panic (msg : string)
| OutOfFuel.

Arguments Ok {S A} a s.
Arguments Panic {S A} msg.
Arguments OutOfFuel {S A}.

Definition M (S A : Type) : Type := S -> Res S A.

Definition ret {S A} (a : A) : M S A := fun s => Ok a s.

Definition bind {S A C} (m : M S A) (k : A -> M S C) : M S C :=
  fun s =>
    match m s with
    | Ok a s' => k a s'
    | Panic msg => Panic msg
    | OutOfFuel => OutOfFuel
    end.

Definition panic {S A} (msg : string) : M S A := fun _ => Panic msg.

Definition get {S} : M S S := fun s => Ok s s.
Definition put {S} (s : S) : M S unit := fun _ => Ok tt s.

Notation "'let!' x ':=' m 'in' k" := (bind m (fun x => k))
  (at level 10, x pattern, m at level 100, k at level 200).

(** ** The connection *)

(** The socket [*net.TCPConn], seen from this end: whether [Close] was
    called on it, the bytes the peer has sent that were not read yet, the
    error a read reports once those bytes are used up ([io_EOF] for an
    orderly shutdown, a timeout, a reset), and the bytes written to it. *)
Record TCPConn := mkTCPConn {
  closed : bool;
  incoming : bytes;
  rerr : error;
  sent : bytes
}.

(** The [*bufio.Writer]: the bytes buffered and its sticky error.  The
    capacity of the buffer is not modelled: bytes reach the socket at
    [Flush] only. *)
Record Writer := mkWriter {
  wbuf : bytes;
  werr : option error
}.

Inductive PoolRef := ThePool.

(** [Conn].  The [*bufio.Reader] [rb] has no state of its own here: it
    reads [incoming] of the socket. *)
Record Conn := mkConn {
  keepAlive : bool;
  pipeCount : Z;
  lastActiveTime : Z;
  buffer : bytes;
  conn : TCPConn;
  wb : Writer;
  readTimeout : Z;
  writeTimeout : Z;
  pool : option PoolRef
}.

Definition set_pipeCount (n : Z) (c : Conn) : Conn :=
  mkConn (keepAlive c) n (lastActiveTime c) (buffer c) (conn c) (wb c)
         (readTimeout c) (writeTimeout c) (pool c).

Definition set_lastActiveTime (t : Z) (c : Conn) : Conn :=
  mkConn (keepAlive c) (pipeCount c) t (buffer c) (conn c) (wb c)
         (readTimeout c) (writeTimeout c) (pool c).

Definition set_buffer (b : bytes) (c : Conn) : Conn :=
  mkConn (keepAlive c) (pipeCount c) (lastActiveTime c) b (conn c) (wb c)
         (readTimeout c) (writeTimeout c) (pool c).

Definition set_conn (k : TCPConn) (c : Conn) : Conn :=
  mkConn (keepAlive c) (pipeCount c) (lastActiveTime c) (buffer c) k (wb c)
         (readTimeout c) (writeTimeout c) (pool c).

Definition set_wb (w : Writer) (c : Conn) : Conn :=
  mkConn (keepAlive c) (pipeCount c) (lastActiveTime c) (buffer c) (conn c) w
         (readTimeout c) (writeTimeout c) (pool c).

Definition set_incoming (s : bytes) (c : Conn) : Conn :=
  set_conn (mkTCPConn (closed (conn c)) s (rerr (conn c)) (sent (conn c))) c.

(** *** The socket and the buffered writer *)

(** [c.conn.SetWriteDeadline] / [SetReadDeadline]: fail on a closed
    socket.  The deadline given is not kept: a read or write on the socket
    finds its bytes at once.  [Call] gives [time.Now().Add(c.writeTimeout)]
    for the read deadline too, so that on a connection with
    [writeTimeout <= 0 < readTimeout] the deadline has passed when the read
    starts and the read times out; the statements on what [Call] writes and
    reads are for the connections on which no deadline passes during the
    call ([deadline_ahead]). *)
Definition SetDeadline : M Conn (option error) :=
  fun c => if closed (conn c) then Ok (Some net_ErrClosed) c else Ok None c.

(** The capacity of the [*bufio.Writer] that [bufio.NewWriter] makes. *)
Definition bufio_size : Z := 4096.

(** [c.wb.Write(p)] and [c.wb.WriteString(s)].  The bytes stay in the
    writer until [Flush]: the writer of the source also writes to the socket
    when a write does not fit in the [bufio_size] bytes it holds, which
    changes neither the bytes that reach the socket nor their order; the
    statements on what is on the socket before [Flush] are for the bytes
    that fit. *)
Definition wb_Write (p : bytes) : M Conn (option error) :=
  fun c =>
    match werr (wb c) with
    | Some e => Ok (Some e) c
    | None => Ok None (set_wb (mkWriter (wbuf (wb c) ++ p) None) c)
    end.

(** [c.wb.Flush()]. *)
Definition wb_Flush : M Conn (option error) :=
  fun c =>
    match werr (wb c) with
    | Some e => Ok (Some e) c
    | None =>
        match wbuf (wb c) with
        | [] => Ok None c
        | _ :: _ =>
            if closed (conn c) then
              Ok (Some net_ErrClosed)
                 (set_wb (mkWriter (wbuf (wb c)) (Some net_ErrClosed)) c)
            else
              Ok None
                 (set_wb (mkWriter [] None)
                    (set_conn (mkTCPConn false (incoming (conn c)) (rerr (conn c))
                                 (sent (conn c) ++ wbuf (wb c))) c))
        end
    end.

(** [c.buffer[pos] = b]: panics out of range. *)
Definition buffer_store (pos : Z) (b : ascii) : M Conn unit :=
  fun c =>
    if (0 <=? pos) && (pos <? len (buffer c)) then
      Ok tt (set_buffer (<[Z.to_nat pos := b]> (buffer c)) c)
    else Panic "index out of range".

(** ** Encoding *)

(** The digit loop of [writeLen]:
    [for i := n; i != 0 && pos >= 0; i = i / 10].  It runs at most
    [pos + 1] times, which is what [k] counts. *)
Fixpoint writeLen_loop (k : nat) (i pos : Z) : M Conn Z :=
  match k with
  | O => ret pos
  | S k' =>
      if negb (i =? 0) && (pos >=? 0) then
        let! _ := buffer_store pos (byte_of_Z (Z.rem i 10 + 48)) in
        writeLen_loop k' (Z.quot i 10) (pos - 1)
      else ret pos
  end.

Definition writeLen (prefix : ascii) (n : Z) : M Conn (option error) :=
  let! c := get in
  let pos := len (buffer c) - 1 in
  let! _ := buffer_store pos LF in
  let pos := pos - 1 in
  let! _ := buffer_store pos CR in
  let pos := pos - 1 in
  let! pos := writeLen_loop (Z.to_nat (pos + 1)) n pos in
  let! _ := buffer_store pos prefix in
  let! c := get in
  let! e := wb_Write (drop (Z.to_nat pos) (buffer c)) in
  match e with
  | Some e => ret (Some e)
  | None => ret None
  end.

Definition writeBytes (b : bytes) : M Conn (option error) :=
  let! e := writeLen "$"%char (len b) in
  match e with
  | Some _ => ret e
  | None =>
      let! e := wb_Write b in
      match e with
      | Some _ => ret e
      | None =>
          let! e := wb_Write CRLF in
          match e with
          | Some _ => ret e
          | None => ret None
          end
      end
  end.

Definition writeString (s : bytes) : M Conn (option error) :=
  let! e := writeLen "$"%char (len s) in
  match e with
  | Some _ => ret e
  | None =>
      let! e := wb_Write s in
      match e with
      | Some _ => ret e
      | None =>
          let! e := wb_Write CRLF in
          match e with
          | Some _ => ret e
          | None => ret None
          end
      end
  end.

Definition writeFloat64 (text : bytes) : M Conn (option error) :=
  writeBytes text.

Definition writeInt64 (n : Z) : M Conn (option error) :=
  writeBytes (AppendInt n).

(** The type switch of [writeRequest]. *)
Definition writeArg (a : arg) : M Conn (option error) :=
  match a with
  | AInt n => writeInt64 n
  | AInt64 n => writeInt64 n
  | AFloat64 text => writeFloat64 text
  | AString s => writeString s
  | ABytes b => writeBytes b
  | ABool true => writeString (B "1")
  | ABool false => writeString (B "0")
  | ANil => writeString (B "")
  | AOther text => writeString text
  end.

(** [for _, arg := range args { if e != nil { return e }; ... }; return e] *)
Fixpoint writeRequest_loop (args : list arg) (e : option error) : M Conn (option error) :=
  match args with
  | [] => ret e
  | a :: args' =>
      match e with
      | Some _ => ret e
      | None => let! e := writeArg a in writeRequest_loop args' e
      end
  end.

Definition writeRequest (command : bytes) (args : list arg) : M Conn (option error) :=
  let! e := writeLen "*"%char (1 + len args) in
  match e with
  | Some _ => ret e
  | None =>
      let! e := writeString command in
      match e with
      | Some _ => ret e
      | None => writeRequest_loop args e
      end
  end.

(** [NewConn], at the time [now] of the clock. *)
Definition NewConn (now : Z) (conn : TCPConn)
    (connectTimeout readTimeout writeTimeout : Z)
    (keepAlive : bool) (pool : option PoolRef) : Conn :=
  mkConn keepAlive 0 (now / 1000000000)
         (replicate (Z.to_nat DefaultBufferSize) "000"%char)
         conn (mkWriter [] None) readTimeout writeTimeout pool.

(** An open socket whose peer sends [input] and then closes. *)
Definition socket (input : bytes) : TCPConn := mkTCPConn false input io_EOF [].

(** A new connection with the default timeouts and no pool. *)
Definition fresh_conn (input : bytes) : Conn :=
  NewConn 0 (socket input) ConnectTimeout ReadTimeout WriteTimeout true None.

(** ** Decoding *)

(** The bytes up to and including the first [delim], and the rest. *)
Fixpoint cut_line (delim : ascii) (s : bytes) : option (bytes * bytes) :=
  match s with
  | [] => None
  | b :: s' =>
      if byte_eqb b delim then Some ([b], s')
      else match cut_line delim s' with
           | Some (l, r) => Some (b :: l, r)
           | None => None
           end
  end.

(** [c.rb.ReadBytes(delim)]: the bytes read and the error. *)
Definition rb_ReadBytes (delim : ascii) : M Conn (bytes * option error) :=
  fun c =>
    if closed (conn c) then Ok ([], Some net_ErrClosed) c
    else
      match cut_line delim (incoming (conn c)) with
      | Some (l, r) => Ok (l, None) (set_incoming r c)
      | None => Ok (incoming (conn c), Some (rerr (conn c))) (set_incoming [] c)
      end.

Definition is_EOF (e : error) : bool :=
  match e with io_EOF => true | _ => false end.

(** [io.ReadFull(c.rb, result)] on a zeroed [result] of length [n]: the
    contents of [result] afterwards and the error. *)
Definition rb_ReadFull (n : nat) : M Conn (bytes * option error) :=
  fun c =>
    match n with
    | O => Ok ([], None) c
    | _ =>
        if closed (conn c) then
          Ok (replicate n "000"%char, Some net_ErrClosed) c
        else
          let s := incoming (conn c) in
          if (n <=? length s)%nat then
            Ok (take n s, None) (set_incoming (drop n s) c)
          else
            Ok (s ++ replicate (n - length s) "000"%char,
                Some (if is_EOF (rerr (conn c)) then
                        match s with
                        | [] => io_EOF
                        | _ :: _ => io_ErrUnexpectedEOF
                        end
                      else rerr (conn c)))
               (set_incoming [] c)
    end.

(** [readLine].  [ReadBytes] does not panic here, so the deferred
    [recover] has nothing to catch. *)
Definition readLine : M Conn (bytes * option error) :=
  let! (p, e) := rb_ReadBytes LF in
  match e with
  | Some _ => ret ([], e)
  | None =>
      let i := len p - 2 in
      if i <=? 0 then ret ([], Some ErrBadTerminator)
      else ret (take (Z.to_nat i) p, None)
  end.

Definition parseInt (p : bytes) : M Conn (Z * option error) :=
  match ParseInt p with
  | inr e => ret (0, Some (errors_New (CommonErrPrefix ++ NumError_text p e)))
  | inl n => ret (n, None)
  end.

Definition parseBulkString (p : bytes) : M Conn (value * option error) :=
  match ParseInt p with
  | inr e => ret (Bytes [], Some (errors_New (CommonErrPrefix ++ NumError_text p e)))
  | inl n =>
      if n =? -1 then ret (Nil, None)
      else
        let m := wrap64 (n + 2) in
        if m <? 0 then panic "makeslice: len out of range"
        else
          let! (result, e) := rb_ReadFull (Z.to_nat m) in
          if (n <? 0) || (m <? n) then panic "slice bounds out of range"
          else ret (Bytes (take (Z.to_nat n) result), e)
  end.

Section parseArray.

(** The decoder [parseArray] calls for each element. *)
Variable readResponse : M Conn (value * option error).

(** [for ; i < n; i++ { result[i], e = c.readResponse(); ... }]; [k]
    bounds the number of iterations. *)
Fixpoint parseArray_loop (k : nat) (n i : Z) (result : list value)
    : M Conn (option (list value) * option error) :=
  if i <? n then
    match k with
    | O => fun _ => OutOfFuel
    | S k' =>
        let! (v, e) := readResponse in
        let result := <[Z.to_nat i := v]> result in
        match e with
        | Some _ => ret (None, e)
        | None => parseArray_loop k' n (i + 1) result
        end
    end
  else ret (Some result, None).

Definition parseArray_with (k : nat) (p : bytes)
    : M Conn (option (list value) * option error) :=
  match ParseInt p with
  | inr e => ret (None, Some (errors_New (CommonErrPrefix ++ NumError_text p e)))
  | inl n =>
      if n =? -1 then ret (None, None)
      else if n <? 0 then panic "makeslice: len out of range"
      else parseArray_loop k n 0 (replicate (Z.to_nat n) Nil)
  end.

End parseArray.

(** [readResponse], with [fuel] bounding the nesting of arrays and the
    number of elements decoded in one array. *)
Fixpoint readResponse_fuel (fuel : nat) : M Conn (value * option error) :=
  match fuel with
  | O => fun _ => OutOfFuel
  | S fuel' =>
      let! (p, e) := readLine in
      match e with
      | Some _ => ret (Nil, e)
      | None =>
          match p with
          | [] => panic "index out of range"
          | resType :: p =>
              if byte_eqb resType TypeError then
                ret (Nil, Some (errors_New (CommonErrPrefix ++ p)))
              else if byte_eqb resType TypeIntegers then
                let! (n, e) := parseInt p in ret (Int64 n, e)
              else if byte_eqb resType TypeSimpleString then
                ret (Bytes p, None)
              else if byte_eqb resType TypeBulkString then
                parseBulkString p
              else if byte_eqb resType TypeArrays then
                let! (l, e) := parseArray_with (readResponse_fuel fuel') fuel' p in
                ret (Slice l, e)
              else ret (Nil, Some (errors_New (CommonErrPrefix ++ B "Err type")))
          end
      end
  end.

(** Every reply line takes at least one byte of the input, so the length
    of the unread input bounds the fuel. *)
Definition enough (c : Conn) : nat := S (length (incoming (conn c))).

Definition readResponse : M Conn (value * option error) :=
  fun c => readResponse_fuel (enough c) c.

Definition parseArray (p : bytes) : M Conn (option (list value) * option error) :=
  fun c => parseArray_with readResponse (enough c) p c.

(** ** The allocation limit *)

(** [make] panics with [makeslice: len out of range] for a negative length
    and also for a length whose slice would take more than [maxAlloc] bytes,
    2^48 on the 64-bit platforms; an [interface{}] takes 16 bytes.
    [parseBulkString] and [parseArray_with] above leave the second case out.
    The decoder with it, which is the one the statements on replies that are
    cut short or fail go through: *)
Definition maxAlloc : Z := 2 ^ 48.
Definition interface_size : Z := 16.

Definition parseBulkString_lim (p : bytes) : M Conn (value * option error) :=
  match ParseInt p with
  | inr e => ret (Bytes [], Some (errors_New (CommonErrPrefix ++ NumError_text p e)))
  | inl n =>
      if n =? -1 then ret (Nil, None)
      else
        let m := wrap64 (n + 2) in
        if (m <? 0) || (m >? maxAlloc) then panic "makeslice: len out of range"
        else
          let! (result, e) := rb_ReadFull (Z.to_nat m) in
          if (n <? 0) || (m <? n) then panic "slice bounds out of range"
          else ret (Bytes (take (Z.to_nat n) result), e)
  end.

Definition parseArray_lim_with (readResponse : M Conn (value * option error))
    (k : nat) (p : bytes) : M Conn (option (list value) * option error) :=
  match ParseInt p with
  | inr e => ret (None, Some (errors_New (CommonErrPrefix ++ NumError_text p e)))
  | inl n =>
      if n =? -1 then ret (None, None)
      else if (n <? 0) || (interface_size * n >? maxAlloc)
      then panic "makeslice: len out of range"
      else parseArray_loop readResponse k n 0 (replicate (Z.to_nat n) Nil)
  end.

Fixpoint readResponse_lim_fuel (fuel : nat) : M Conn (value * option error) :=
  match fuel with
  | O => fun _ => OutOfFuel
  | S fuel' =>
      let! (p, e) := readLine in
      match e with
      | Some _ => ret (Nil, e)
      | None =>
          match p with
          | [] => panic "index out of range"
          | resType :: p =>
              if byte_eqb resType TypeError then
                ret (Nil, Some (errors_New (CommonErrPrefix ++ p)))
              else if byte_eqb resType TypeIntegers then
                let! (n, e) := parseInt p in ret (Int64 n, e)
              else if byte_eqb resType TypeSimpleString then
                ret (Bytes p, None)
              else if byte_eqb resType TypeBulkString then
                parseBulkString_lim p
              else if byte_eqb resType TypeArrays then
                let! (l, e) := parseArray_lim_with (readResponse_lim_fuel fuel') fuel' p in
                ret (Slice l, e)
              else ret (Nil, Some (errors_New (CommonErrPrefix ++ B "Err type")))
          end
      end
  end.

Definition readResponse_lim : M Conn (value * option error) :=
  fun c => readResponse_lim_fuel (enough c) c.

(** ** The world: clock, heap of connections, pool *)

(** Modelled from the spec: the [Pool] type is not part of conn.go.  The
    spec gives the two operations the connection needs of it:
    [acquire_replacement_connection() -> Connection | none] (the method
    [Pop]) and the call counter incremented under a mutex ([CallNum]).  The
    pool is the list of the connections it can still hand out. *)
Record Pool := mkPool {
  CallNum : Z;
  idle : list nat
}.

(** [now] is the clock in nanoseconds; a [*Conn] is a key of [conns]. *)
Record World := mkWorld {
  now : Z;
  conns : gmap nat Conn;
  thePool : Pool
}.

Definition load (c : nat) : M World Conn :=
  fun w =>
    match conns w !! c with
    | Some x => Ok x w
    | None => Panic "invalid memory address or nil pointer dereference"
    end.

(** Run an operation of the connection at address [c]. *)
Definition on_conn {A} (c : nat) (m : M Conn A) : M World A :=
  fun w =>
    match conns w !! c with
    | None => Panic "invalid memory address or nil pointer dereference"
    | Some x =>
        match m x with
        | Ok a x' => Ok a (mkWorld (now w) (<[c := x']> (conns w)) (thePool w))
        | Panic msg => Panic msg
        | OutOfFuel => OutOfFuel
        end
    end.

(** [time.Now().Unix()] *)
Definition time_Now_Unix : M World Z := fun w => Ok (now w / 1000000000) w.

(** [time.Sleep(d)] *)
Definition time_Sleep (d : Z) : M World unit :=
  fun w => Ok tt (mkWorld (now w + d) (conns w) (thePool w)).

(** [c.pool.callMu.Lock(); c.pool.CallNum++; c.pool.callMu.Unlock()] *)
Definition Pool_count : M World unit :=
  fun w => Ok tt (mkWorld (now w) (conns w)
                    (mkPool (wrap64 (CallNum (thePool w) + 1)) (idle (thePool w)))).

(** [c.pool.Pop()]: the next connection of the pool, or nil. *)
Definition Pool_Pop : M World (option nat) :=
  fun w =>
    match idle (thePool w) with
    | [] => Ok None w
    | c :: rest => Ok (Some c) (mkWorld (now w) (conns w) (mkPool (CallNum (thePool w)) rest))
    end.

(** [Close] *)
Definition Close (c : nat) : M World unit :=
  on_conn c (fun x =>
    Ok tt (set_conn (mkTCPConn true (incoming (conn x)) (rerr (conn x)) (sent (conn x))) x)).

(** ** Call *)

Definition Call (c : nat) (command : bytes) (args : list arg)
    : M World (value * option error) :=
  let! t := time_Now_Unix in
  let! _ := on_conn c (fun x => Ok tt (set_lastActiveTime t x)) in
  let! x := load c in
  let! _ := match pool x with Some ThePool => Pool_count | None => ret tt end in
  let! e := if writeTimeout x >? 0 then on_conn c SetDeadline else ret None in
  match e with
  | Some _ => ret (Nil, e)
  | None =>
      let! e := on_conn c (writeRequest command args) in
      match e with
      | Some _ => ret (Nil, e)
      | None =>
          let! e := on_conn c wb_Flush in
          match e with
          | Some _ => ret (Nil, e)
          | None =>
              let! e := if readTimeout x >? 0 then on_conn c SetDeadline else ret None in
              match e with
              | Some _ => ret (Nil, e)
              | None =>
                  let! (response, e) := on_conn c readResponse in
                  match e with
                  | Some _ => ret (Nil, e)
                  | None => ret (response, e)
                  end
              end
          end
      end
  end.

(** ** CallN *)

(** [e != nil && !strings.Contains(e.Error(), CommonErrPrefix)] *)
Definition transport_failure (e : option error) : bool :=
  match e with
  | Some err => negb (Contains (Error err) CommonErrPrefix)
  | None => false
  end.

(** [for i := 0; i < retry; i++ { ... }; return ret, e], with [k] the
    iterations left. *)
Fixpoint CallN_loop (k : nat) (c : nat) (command : bytes) (args : list arg)
    (r : value) (e : option error) : M World (value * option error) :=
  match k with
  | O => ret (r, e)
  | S k' =>
      let! (r, e) := Call c command args in
      if transport_failure e then
        let! _ := time_Sleep RetryWaitSeconds in
        let! _ := Close c in
        let! x := load c in
        match pool x with
        | None => ret (Nil, e)
        | Some ThePool =>
            let! c' := Pool_Pop in
            match c' with
            | None => ret (Nil, e)
            | Some c' => CallN_loop k' c' command args r e
            end
        end
      else CallN_loop k' c command args r e
  end.

Definition CallN (c : nat) (retry : Z) (command : bytes) (args : list arg)
    : M World (value * option error) :=
  CallN_loop (Z.to_nat retry) c command args Nil None.

(** ** Pipelining *)

Definition PipeSend (command : bytes) (args : list arg) : M Conn (option error) :=
  let! c := get in
  let! _ := put (set_pipeCount (wrap64 (pipeCount c + 1)) c) in
  writeRequest command args.

(** [for i := 0; i < n; i++ { ret[i], e = c.readResponse() }], with [k] the
    iterations left. *)
Fixpoint PipeExec_loop (k : nat) (i : nat) (r : list value) (e : option error)
    : M Conn (list value * option error) :=
  match k with
  | O => ret (r, e)
  | S k' =>
      let! (v, e) := readResponse in
      PipeExec_loop k' (S i) (<[i := v]> r) e
  end.

Definition PipeExec : M Conn (option (list value) * option error) :=
  let! e := wb_Flush in
  match e with
  | Some _ => ret (None, e)
  | None =>
      let! c := get in
      let n := pipeCount c in
      if n <? 0 then panic "makeslice: len out of range"
      else
        let r := replicate (Z.to_nat n) Nil in
        let! _ := put (set_pipeCount 0 c) in
        let! (r, e) := PipeExec_loop (Z.to_nat n) 0 r e in
        ret (Some r, e)
  end.

(** ** Transactions *)

(** [len(r) == 2 && r[0] == 'O' && r[1] == 'K'] *)
Definition is_OK (r : bytes) : bool :=
  match r with
  | [a; b] => byte_eqb a "O"%char && byte_eqb b "K"%char
  | _ => false
  end.

Definition is_QUEUED (r : bytes) : bool :=
  match r with
  | [a; b; c; d; e; f] =>
      byte_eqb a "Q"%char && byte_eqb b "U"%char && byte_eqb c "E"%char &&
      byte_eqb d "U"%char && byte_eqb e "E"%char && byte_eqb f "D"%char
  | _ => false
  end.

(** The tail shared by [MULTI], [TransSend], [Discard] and [Watch]: the
    reply must be a byte slice with the expected text. *)
Definition expect (ok : bytes -> bool) (r : value * option error) : option error :=
  match r with
  | (_, Some e) => Some e
  | (Bytes b, None) =>
      if ok b then None else Some (errors_New (B "invalid return:" ++ b))
  | (_, None) => Some ErrBadType
  end.

Definition MULTI (c : nat) : M World (option error) :=
  let! r := Call c (B "MULTI") [] in ret (expect is_OK r).

Definition TransSend (c : nat) (command : bytes) (args : list arg) : M World (option error) :=
  let! r := Call c command args in ret (expect is_QUEUED r).

Definition TransExec (c : nat) : M World (option (list value) * option error) :=
  let! (r, e) := Call c (B "EXEC") [] in
  let! e := on_conn c wb_Flush in
  match e with
  | Some _ => ret (None, e)
  | None =>
      match r with
      | Nil => ret (None, Some ErrNil)
      | Slice l => ret (l, e)
      | _ => panic "interface conversion: interface {} is not []interface {}"
      end
  end.

Definition Discard (c : nat) : M World (option error) :=
  let! r := Call c (B "DISCARD") [] in ret (expect is_OK r).

(** [for i, key := range args { args[i] = key }], with [k] the iterations
    left: the loop ranges over [args] itself. *)
Fixpoint Watch_loop (k : nat) (i : nat) (args : list arg) : list arg :=
  match k with
  | O => args
  | S k' =>
      match args !! i with
      | Some key => Watch_loop k' (S i) (<[i := key]> args)
      | None => args
      end
  end.

Definition Watch (c : nat) (keys : list bytes) : M World (option error) :=
  let args := replicate (length keys) ANil in
  let args := Watch_loop (length args) 0 args in
  let! r := Call c (B "WATCH") args in ret (expect is_OK r).

(** ** Worlds to run on *)

Definition world (cs : list (nat * Conn)) (p : list nat) : World :=
  mkWorld 0 (list_to_map cs) (mkPool 0 p).

(** A new connection with the default timeouts, attached to the pool. *)
Definition pooled_conn (input : bytes) : Conn :=
  NewConn 0 (socket input) ConnectTimeout ReadTimeout WriteTimeout true (Some ThePool).

(** What a run leaves to look at: the result, the bytes sent on the socket
    of a connection, whether it was closed, the clock and the pool. *)
Definition result {S A} (r : Res S A) : option A :=
  match r with Ok a _ => Some a | _ => None end.

Definition final {S A} (r : Res S A) : option S :=
  match r with Ok _ s => Some s | _ => None end.

Definition sent_on (c : nat) (w : World) : option bytes :=
  x ← conns w !! c; Some (sent (conn x)).

Definition closed_on (c : nat) (w : World) : option bool :=
  x ← conns w !! c; Some (closed (conn x)).

(** ** Reference points for the statements *)

(** The number of bytes of the input not read yet. *)
Definition unread (c : Conn) : nat := length (incoming (conn c)).

(** Decoding [n] replies one after the other, each from where the one
    before stopped: the values in the order read and the connection
    afterwards, if every one of them decodes without error. *)
Fixpoint decode_n (n : nat) (c : Conn) : option (list value * Conn) :=
  match n with
  | O => Some ([], c)
  | S n' =>
      match readResponse c with
      | Ok (v, None) c1 =>
          match decode_n n' c1 with
          | Some (vs, c2) => Some (v :: vs, c2)
          | None => None
          end
      | _ => None
      end
  end.

(** [decode_n] through the decoder with the allocation limit. *)
Fixpoint decode_n_lim (n : nat) (c : Conn) : option (list value * Conn) :=
  match n with
  | O => Some ([], c)
  | S n' =>
      match readResponse_lim c with
      | Ok (v, None) c1 =>
          match decode_n_lim n' c1 with
          | Some (vs, c2) => Some (v :: vs, c2)
          | None => None
          end
      | _ => None
      end
  end.

(** No deadline that [Call] sets passes during the call: the connection
    has no timeouts, so that [Call] sets none, or its [writeTimeout], which
    [Call] adds to the clock for the write and for the read deadline, is at
    least the [WriteTimeout] of the package. *)
Definition deadline_ahead (c : Conn) : Prop :=
  (writeTimeout c <= 0 /\ readTimeout c <= 0) \/ WriteTimeout <= writeTimeout c.

(** The bytes buffered for sending after a run on a connection. *)
Definition written {A} (r : Res Conn A) : option bytes :=
  match r with Ok _ c => Some (wbuf (wb c)) | _ => None end.

(** The input left unread after a run on a connection. *)
Definition left_unread {A} (r : Res Conn A) : option bytes :=
  match r with Ok _ c => Some (incoming (conn c)) | _ => None end.


Definition INCR_k_wire : bytes :=
  B "*2" ++ CRLF ++ B "$4" ++ CRLF ++ B "INCR" ++ CRLF ++ B "$1" ++ CRLF ++ B "k" ++ CRLF.

Definition INCR_k : list arg := [AString (B "k")].

(** One pooled connection at address 0 whose peer sends an Error reply and
    then a simple string; the pool has nothing to hand out. *)
Definition world_error_then_reply : World :=
  world [(0%nat, pooled_conn (B "-ERR x" ++ CRLF ++ B "+B" ++ CRLF))] [].

(** The peer of connection 0 sends an Error reply and then closes; the pool
    holds connection 1, whose peer answers. *)
Definition world_error_then_EOF : World :=
  world [(0%nat, pooled_conn (B "-ERR x" ++ CRLF)); (1%nat, pooled_conn (B "+B" ++ CRLF))] [1%nat].

(** The peer of connection 0 answers two requests. *)
Definition world_two_replies : World :=
  world [(0%nat, pooled_conn (B "+A" ++ CRLF ++ B "+B" ++ CRLF))] [].

(** The peer of connection 0 closes without answering; the pool holds
    connection 1, whose peer answers one request and then closes. *)
Definition world_EOF_then_reply : World :=
  world [(0%nat, pooled_conn []); (1%nat, pooled_conn (B "+B" ++ CRLF))] [1%nat].

(** Two requests pipelined on a fresh connection whose peer answers the
    first with an Error reply and the second with OK. *)
Definition pipeline_error_then_OK : M Conn (option (list value) * option error) :=
  let! _ := PipeSend (B "GET") [AString (B "a")] in
  let! _ := PipeSend (B "GET") [AString (B "b")] in
  PipeExec.

Definition world_one_reply (reply : bytes) : World :=
  world [(0%nat, pooled_conn reply)] [].

(** What [writeLen] puts between the type byte and CR LF: the decimal
    digits of [n], and nothing for zero. *)
Definition lenDigits (n : Z) : bytes := if n =? 0 then [] else AppendInt n.

(** The frame [writeString] and [writeBytes] write for the bytes [s]. *)
Definition frame (s : bytes) : bytes :=
  "$"%char :: lenDigits (len s) ++ CRLF ++ s ++ CRLF.

(** The bytes an argument is written as. *)
Definition arg_text (a : arg) : bytes :=
  match a with
  | AInt n => AppendInt n
  | AInt64 n => AppendInt n
  | AFloat64 text => text
  | AString s => s
  | ABytes b => b
  | ABool true => B "1"
  | ABool false => B "0"
  | ANil => []
  | AOther text => text
  end.

(** The bytes of a whole request. *)
Definition request (command : bytes) (args : list arg) : bytes :=
  "*"%char :: lenDigits (1 + len args) ++ CRLF ++
  frame command ++ concat (map (fun a => frame (arg_text a)) args).

(** The connection after a write: new scratch buffer, more bytes buffered. *)
Definition wrote (buf : bytes) (p : bytes) (c : Conn) : Conn :=
  set_wb (mkWriter (wbuf (wb c) ++ p) None) (set_buffer buf c).

(** The errors of the stream itself, as [readLine] and [io.ReadFull] hand
    them on: the bad terminator, a read on a closed socket, the error the
    socket reports at the end of its input, and a payload cut short. *)
Definition stream_error (c : Conn) (e : error) : Prop :=
  e = ErrBadTerminator \/ e = net_ErrClosed \/ e = rerr (conn c) \/
  e = io_ErrUnexpectedEOF.

(** [consumed c c']: the connection [c'] is [c] after some bytes at the
    front of its input were read, with nothing else changed. *)
Definition consumed (c c' : Conn) : Prop :=
  exists used rest,
    incoming (conn c) = used ++ rest /\ c' = set_incoming rest c.

(** [buffered c c']: the connection [c'] is [c] after the encoder ran: the
    scratch buffer may differ and bytes may have been added to the bytes to
    send (or the writer's error set); nothing else is changed. *)
Definition buffered (c c' : Conn) : Prop :=
  exists buf w p,
    c' = set_wb w (set_buffer buf c) /\ wbuf w = wbuf (wb c) ++ p.

(** [advanced x x']: what every operation of a connection short of [Close]
    keeps: its settings, its pending count and time stamp, whether it is
    closed; the bytes sent only grow and the unread input only shrinks. *)
Definition advanced (x x' : Conn) : Prop :=
  keepAlive x' = keepAlive x /\ pipeCount x' = pipeCount x /\
  lastActiveTime x' = lastActiveTime x /\
  readTimeout x' = readTimeout x /\ writeTimeout x' = writeTimeout x /\
  pool x' = pool x /\
  closed (conn x') = closed (conn x) /\ rerr (conn x') = rerr (conn x) /\
  (exists u, sent (conn x') = sent (conn x) ++ u) /\
  (exists u, incoming (conn x) = u ++ incoming (conn x')).

(** The connection [o] reading the input of [c]: [o] with the closed flag,
    the unread input and the end-of-input error of [c]. *)
Definition reader_of (o c : Conn) : Conn :=
  set_conn (mkTCPConn (closed (conn c)) (incoming (conn c)) (rerr (conn c))
              (sent (conn o))) o.

(** A result with its final connection mapped. *)
Definition on_final {A} (g : Conn -> Conn) (r : Res Conn A) : Res Conn A :=
  match r with
  | Ok a c => Ok a (g c)
  | Panic msg => Panic msg
  | OutOfFuel => OutOfFuel
  end.

(** The connection [x] after a [Call] at the second [t] that found the
    scratch buffer [buf], sent the request [p] and decoded one reply, [x']
    giving the reading side afterwards. *)
Definition after_Call (t : Z) (buf p : bytes) (x x' : Conn) : Conn :=
  mkConn (keepAlive x) (pipeCount x) t buf
         (mkTCPConn (closed (conn x')) (incoming (conn x')) (rerr (conn x'))
                    (sent (conn x) ++ wbuf (wb x) ++ p))
         (mkWriter [] None) (readTimeout x) (writeTimeout x) (pool x).

(** The pool after a [Call] on the connection [x]. *)
Definition counted (x : Conn) (p : Pool) : Pool :=
  match pool x with
  | Some ThePool => mkPool (wrap64 (CallNum p + 1)) (idle p)
  | None => p
  end.

(** The world a run ended in, or [d] if it did not return. *)
Definition world_after {A} (r : Res World A) (d : World) : World :=
  match r with Ok _ w => w | _ => d end.

(** The connection at [a] closed by [Close]. *)
Definition closed_conn (x : Conn) : Conn :=
  set_conn (mkTCPConn true (incoming (conn x)) (rerr (conn x)) (sent (conn x))) x.

(** A caller pipelining the requests [cmds]: one [PipeSend] each, in order,
    stopping at the first that reports an error. *)
Fixpoint PipeSend_all (cmds : list (bytes * list arg)) : M Conn (option error) :=
  match cmds with
  | [] => ret None
  | (command, args) :: cmds' =>
      let! e := PipeSend command args in
      match e with
      | Some _ => ret e
      | None => PipeSend_all cmds'
      end
  end.

Definition requests (cmds : list (bytes * list arg)) : bytes :=
  concat (map (fun ca => request (fst ca) (snd ca)) cmds).

(** A request whose lengths are lengths of Go slices. *)
Definition request_fits (ca : bytes * list arg) : Prop :=
  len (fst ca) <= max_int64 /\ 1 + len (snd ca) <= max_int64 /\
  Forall (fun a => len (arg_text a) <= max_int64) (snd ca).

(** One pooled connection at address 0 that has been closed. *)
Definition world_closed : World :=
  world [(0%nat, closed_conn (pooled_conn []))] [].

(** One connection without a pool at address 0 whose peer closes without
    answering. *)
Definition world_EOF : World := world [(0%nat, fresh_conn [])] [].

(** * Properties *)

(** ** The decoder is total *)

Ltac run_in H :=
  unfold bind, ret, get, put, panic in H; simpl in H.

Lemma cut_line_split delim s l r :
  cut_line delim s = Some (l, r) -> s = l ++ r /\ (0 < length l)%nat.
Proof.
  revert l r. induction s as [|b s IH]; intros l r H; simpl in H; [discriminate|].
  destruct (byte_eqb b delim).
  - inversion H; subst. simpl. split; [reflexivity|lia].
  - destruct (cut_line delim s) as [[l' r']|]; [|discriminate].
    inversion H; subst. destruct (IH l' r eq_refl) as [-> _].
    simpl. split; [reflexivity|lia].
Qed.

Lemma rb_ReadBytes_unread delim c p e c' :
  rb_ReadBytes delim c = Ok (p, e) c' ->
  (unread c' <= unread c)%nat /\ (e = None -> (unread c' < unread c)%nat).
Proof.
  unfold rb_ReadBytes, unread. intros H.
  destruct (closed (conn c)).
  - inversion H; subst. split; [lia|discriminate].
  - destruct (cut_line delim (incoming (conn c))) as [[l r]|] eqn:E.
    + inversion H; subst. simpl.
      destruct (cut_line_split _ _ _ _ E) as [-> Hl].
      rewrite length_app. split; intros; lia.
    + inversion H; subst. simpl. split; [lia|discriminate].
Qed.

Lemma readLine_unread c p e c' :
  readLine c = Ok (p, e) c' ->
  (unread c' <= unread c)%nat /\ (e = None -> (unread c' < unread c)%nat).
Proof.
  unfold readLine. intros H. run_in H.
  destruct (rb_ReadBytes LF c) as [[p0 e0] c0| |] eqn:E; try discriminate.
  destruct (rb_ReadBytes_unread _ _ _ _ _ E) as [Hle Hlt].
  destruct e0.
  - inversion H; subst. split; [lia|discriminate].
  - destruct (len p0 - 2 <=? 0); inversion H; subst; split; auto; discriminate.
Qed.

Lemma rb_ReadFull_unread n c r e c' :
  rb_ReadFull n c = Ok (r, e) c' -> (unread c' <= unread c)%nat.
Proof.
  unfold rb_ReadFull, unread. intros H.
  destruct n; [inversion H; subst; lia|].
  destruct (closed (conn c)); [inversion H; subst; lia|].
  destruct (S n <=? length (incoming (conn c)))%nat;
    inversion H; subst; simpl; rewrite ?length_drop; lia.
Qed.

Lemma parseBulkString_unread p c v e c' :
  parseBulkString p c = Ok (v, e) c' -> (unread c' <= unread c)%nat.
Proof.
  unfold parseBulkString. intros H.
  destruct (ParseInt p) as [n|err]; run_in H; [|inversion H; subst; lia].
  destruct (n =? -1); [inversion H; subst; lia|].
  destruct (wrap64 (n + 2) <? 0); [discriminate|].
  destruct (rb_ReadFull _ c) as [[r0 e0] c0| |] eqn:E; try discriminate.
  apply rb_ReadFull_unread in E.
  destruct ((n <? 0) || (wrap64 (n + 2) <? n)); [discriminate|].
  inversion H; subst. lia.
Qed.

Lemma parseBulkString_fuel p c : parseBulkString p c <> OutOfFuel.
Proof.
  unfold parseBulkString, bind, ret, panic, rb_ReadFull.
  repeat case_match; congruence.
Qed.

Section loop_facts.

Variable rd : M Conn (value * option error).

Hypothesis rd_unread : forall c v e c',
  rd c = Ok (v, e) c' ->
  (unread c' <= unread c)%nat /\ (e = None -> (unread c' < unread c)%nat).

Lemma parseArray_loop_unread k n i res c l e c' :
  parseArray_loop rd k n i res c = Ok (l, e) c' -> (unread c' <= unread c)%nat.
Proof.
  revert i res c. induction k as [|k IH]; intros i res c H; simpl in H.
  - destruct (i <? n); [discriminate|]. inversion H; subst; lia.
  - destruct (i <? n); [|inversion H; subst; lia].
    run_in H. destruct (rd c) as [[v0 e0] c0| |] eqn:E; try discriminate.
    destruct (rd_unread _ _ _ _ E) as [Hle _].
    destruct e0; [inversion H; subst; lia|].
    apply IH in H. lia.
Qed.

Lemma parseArray_with_unread k p c l e c' :
  parseArray_with rd k p c = Ok (l, e) c' -> (unread c' <= unread c)%nat.
Proof.
  unfold parseArray_with. intros H.
  destruct (ParseInt p) as [n|err]; [|inversion H; subst; lia].
  destruct (n =? -1); [inversion H; subst; lia|].
  destruct (n <? 0); [discriminate|].
  eapply parseArray_loop_unread; eauto.
Qed.

End loop_facts.

Lemma readResponse_fuel_unread fuel : forall c v e c',
  readResponse_fuel fuel c = Ok (v, e) c' ->
  (unread c' <= unread c)%nat /\ (e = None -> (unread c' < unread c)%nat).
Proof.
  induction fuel as [|fuel IH]; intros c v e c' H; simpl in H; [discriminate|].
  run_in H.
  destruct (readLine c) as [[p e0] c0| |] eqn:E; try discriminate.
  destruct (readLine_unread _ _ _ _ E) as [Hle Hlt].
  destruct e0; [inversion H; subst; split; [lia|discriminate]|].
  specialize (Hlt eq_refl).
  destruct p as [|t p]; [discriminate|].
  destruct (byte_eqb t TypeError); [inversion H; subst; split; [lia|discriminate]|].
  destruct (byte_eqb t TypeIntegers).
  { unfold parseInt in H. destruct (ParseInt p); inversion H; subst; split; intros; lia. }
  destruct (byte_eqb t TypeSimpleString); [inversion H; subst; split; intros; lia|].
  destruct (byte_eqb t TypeBulkString).
  { apply parseBulkString_unread in H. split; intros; lia. }
  destruct (byte_eqb t TypeArrays); [|inversion H; subst; split; [lia|discriminate]].
  destruct (parseArray_with _ fuel p c0) as [[l e1] c1| |] eqn:E1; try discriminate.
  apply parseArray_with_unread in E1; [|exact IH].
  inversion H; subst. split; intros; lia.
Qed.

Lemma readLine_fuel c : readLine c <> OutOfFuel.
Proof.
  unfold readLine, bind, ret, rb_ReadBytes. repeat case_match; congruence.
Qed.

(** Enough fuel: the decoder does not stop for want of it. *)
Lemma parseArray_loop_fuel rd fuel
  (rd_unread : forall c v e c', rd c = Ok (v, e) c' ->
     (unread c' <= unread c)%nat /\ (e = None -> (unread c' < unread c)%nat))
  (rd_fuel : forall c, (unread c < fuel)%nat -> rd c <> OutOfFuel) :
  forall k n i res c,
    (unread c < k)%nat -> (unread c < fuel)%nat ->
    parseArray_loop rd k n i res c <> OutOfFuel.
Proof.
  induction k as [|k IH]; intros n i res c Hk Hf; [lia|].
  simpl. destruct (i <? n); [|discriminate].
  unfold bind. destruct (rd c) as [[v e] c'| |] eqn:E; [|discriminate|].
  - destruct (rd_unread _ _ _ _ E) as [_ Hlt].
    destruct e; [discriminate|].
    specialize (Hlt eq_refl). apply IH; lia.
  - exfalso. exact (rd_fuel c Hf E).
Qed.

Lemma readResponse_fuel_enough fuel : forall c,
  (unread c < fuel)%nat -> readResponse_fuel fuel c <> OutOfFuel.
Proof.
  induction fuel as [|fuel IH]; intros c Hc; [lia|].
  simpl. unfold bind.
  destruct (readLine c) as [[p e0] c0| |] eqn:E; [|discriminate|].
  2: { exfalso. exact (readLine_fuel c E). }
  destruct (readLine_unread _ _ _ _ E) as [_ Hlt].
  destruct e0; [discriminate|]. specialize (Hlt eq_refl).
  destruct p as [|t p]; [discriminate|].
  destruct (byte_eqb t TypeError); [discriminate|].
  destruct (byte_eqb t TypeIntegers).
  { unfold parseInt, ret. destruct (ParseInt p); discriminate. }
  destruct (byte_eqb t TypeSimpleString); [discriminate|].
  destruct (byte_eqb t TypeBulkString); [apply parseBulkString_fuel|].
  destruct (byte_eqb t TypeArrays); [|discriminate].
  destruct (parseArray_with _ fuel p c0) as [[l e1] c1| |] eqn:E1; try discriminate.
  exfalso. revert E1. unfold parseArray_with.
  destruct (ParseInt p) as [n|err]; [|discriminate].
  destruct (n =? -1); [discriminate|].
  destruct (n <? 0); [discriminate|].
  apply (parseArray_loop_fuel _ fuel (readResponse_fuel_unread fuel) IH); lia.
Qed.

(** More fuel does not change a result. *)
Lemma parseArray_loop_mono rd1 rd2
  (rd_mono : forall c r, rd1 c = r -> r <> OutOfFuel -> rd2 c = r) :
  forall k1 k2 n i res c r,
    (k1 <= k2)%nat ->
    parseArray_loop rd1 k1 n i res c = r -> r <> OutOfFuel ->
    parseArray_loop rd2 k2 n i res c = r.
Proof.
  induction k1 as [|k1 IH]; intros k2 n i res c r Hk H Hr.
  - simpl in H. destruct k2; simpl; destruct (i <? n); congruence.
  - destruct k2 as [|k2]; [lia|]. simpl in *.
    destruct (i <? n); [|exact H].
    unfold bind in *.
    destruct (rd1 c) as [[v e] c'| |] eqn:E.
    + rewrite (rd_mono c _ E ltac:(discriminate)).
      destruct e; [exact H|]. eapply IH; eauto. lia.
    + rewrite (rd_mono c _ E ltac:(discriminate)). exact H.
    + congruence.
Qed.

Lemma readResponse_fuel_mono f1 : forall f2 c r,
  (f1 <= f2)%nat ->
  readResponse_fuel f1 c = r -> r <> OutOfFuel -> readResponse_fuel f2 c = r.
Proof.
  induction f1 as [|f1 IH]; intros f2 c r Hf H Hr; [simpl in H; congruence|].
  destruct f2 as [|f2]; [lia|]. simpl in *. unfold bind in *.
  destruct (readLine c) as [[p e0] c0| |]; try exact H.
  destruct e0; [exact H|].
  destruct p as [|t p]; [exact H|].
  repeat (match goal with |- context [if ?b then _ else _] => destruct b end;
          try exact H).
  destruct (parseArray_with (readResponse_fuel f1) f1 p c0) as [[l e1] c1| |] eqn:E.
  - assert (parseArray_with (readResponse_fuel f2) f2 p c0 = Ok (l, e1) c1) as ->; [|exact H].
    revert E. unfold parseArray_with. destruct (ParseInt p); [|auto].
    repeat (match goal with |- context [if ?b then _ else _] => destruct b end; auto).
    intros E. eapply parseArray_loop_mono; [| |exact E|discriminate]; [|lia].
    intros c' r' Hc' Hr'. eapply IH; eauto. lia.
  - assert (parseArray_with (readResponse_fuel f2) f2 p c0 = Panic msg) as ->; [|exact H].
    revert E. unfold parseArray_with. destruct (ParseInt p); [|auto].
    repeat (match goal with |- context [if ?b then _ else _] => destruct b end; auto).
    intros E. eapply parseArray_loop_mono; [| |exact E|discriminate]; [|lia].
    intros c' r' Hc' Hr'. eapply IH; eauto. lia.
  - congruence.
Qed.

(** Hence the result does not depend on the fuel, once there is enough. *)
Lemma readResponse_fuel_eq fuel c :
  (unread c < fuel)%nat -> readResponse_fuel fuel c = readResponse c.
Proof.
  intros H. unfold readResponse, enough.
  apply (readResponse_fuel_mono (S (length (incoming (conn c)))) fuel c);
    [exact H|reflexivity|].
  apply readResponse_fuel_enough. unfold unread. lia.
Qed.

Lemma readResponse_total c : readResponse c <> OutOfFuel.
Proof. apply readResponse_fuel_enough. unfold enough, unread. lia. Qed.

Lemma readResponse_unread c v e c' :
  readResponse c = Ok (v, e) c' ->
  (unread c' <= unread c)%nat /\ (e = None -> (unread c' < unread c)%nat).
Proof. apply readResponse_fuel_unread. Qed.

Lemma parseArray_loop_eq fuel : forall k1 k2 n i res c,
  (unread c < k1)%nat -> (unread c < k2)%nat -> (unread c < fuel)%nat ->
  parseArray_loop (readResponse_fuel fuel) k1 n i res c =
  parseArray_loop readResponse k2 n i res c.
Proof.
  induction k1 as [|k1 IH]; intros k2 n i res c H1 H2 Hf; [lia|].
  destruct k2 as [|k2]; [lia|]. simpl.
  destruct (i <? n); [|reflexivity].
  unfold bind. rewrite (readResponse_fuel_eq fuel c Hf).
  destruct (readResponse c) as [[v e] c'| |] eqn:E; try reflexivity.
  destruct e; [reflexivity|].
  destruct (readResponse_unread _ _ _ _ E) as [_ Hlt]. specialize (Hlt eq_refl).
  apply IH; lia.
Qed.

(** [readResponse] unfolds to the body the source gives it. *)
Lemma readResponse_eq c :
  readResponse c =
  (let! (p, e) := readLine in
   match e with
   | Some _ => ret (Nil, e)
   | None =>
       match p with
       | [] => panic "index out of range"
       | resType :: p =>
           if byte_eqb resType TypeError then
             ret (Nil, Some (errors_New (CommonErrPrefix ++ p)))
           else if byte_eqb resType TypeIntegers then
             let! (n, e) := parseInt p in ret (Int64 n, e)
           else if byte_eqb resType TypeSimpleString then
             ret (Bytes p, None)
           else if byte_eqb resType TypeBulkString then
             parseBulkString p
           else if byte_eqb resType TypeArrays then
             let! (l, e) := parseArray p in ret (Slice l, e)
           else ret (Nil, Some (errors_New (CommonErrPrefix ++ B "Err type")))
       end
   end) c.
Proof.
  unfold readResponse at 1, enough. simpl. unfold bind.
  destruct (readLine c) as [[p e0] c0| |] eqn:E; try reflexivity.
  destruct e0; [reflexivity|].
  destruct p as [|t p]; [reflexivity|].
  repeat (match goal with |- context [if ?b then _ else _] => destruct b end;
          try reflexivity).
  destruct (readLine_unread _ _ _ _ E) as [_ Hlt]. specialize (Hlt eq_refl).
  unfold parseArray, parseArray_with, enough.
  destruct (ParseInt p); [|reflexivity].
  repeat (match goal with |- context [if ?b then _ else _] => destruct b end;
          try reflexivity).
  rewrite (parseArray_loop_eq _ _ (S (length (incoming (conn c0))))); [reflexivity| | |];
    unfold unread in *; lia.
Qed.

(** ** Header lines *)

Lemma ParseUint_loop_digits s : forall n m,
  ParseUint_loop s n = inl m -> Forall (fun b => isDigit b = true) s.
Proof.
  induction s as [|b s IH]; intros n m H; [constructor|].
  simpl in H. destruct (isDigit b) eqn:Eb; [|discriminate].
  destruct (n >=? max_uint64 / 10 + 1); [discriminate|].
  destruct (n * 10 + (Z_of_byte b - 48) >? max_uint64); [discriminate|].
  constructor; [exact Eb|eauto].
Qed.

Lemma isDigit_not_LF b : isDigit b = true -> byte_eqb b LF = false.
Proof.
  unfold isDigit, byte_eqb. intros H.
  destruct (Ascii.eqb_spec b LF) as [->|]; [discriminate H|reflexivity].
Qed.

(** A header that [ParseInt] accepts has no line feed in it. *)
Lemma ParseInt_no_LF p n :
  ParseInt p = inl n -> Forall (fun b => byte_eqb b LF = false) p.
Proof.
  unfold ParseInt. destruct p as [|b p]; [discriminate|].
  intros H. cbv zeta in H.
  destruct (ParseUint _) as [un|[]] eqn:E in H; try discriminate.
  clear H. unfold ParseUint in E.
  destruct (byte_eqb b "+" || byte_eqb b "-") eqn:Es.
  - constructor.
    + unfold byte_eqb in *.
      destruct (Ascii.eqb_spec b LF) as [->|]; [discriminate Es|reflexivity].
    + destruct p; [discriminate|].
      eapply Forall_impl; [eapply ParseUint_loop_digits; eauto|].
      intros x Hx. simpl in Hx. apply isDigit_not_LF, Hx.
  - eapply Forall_impl; [eapply ParseUint_loop_digits; eauto|].
    intros x Hx. simpl in Hx. apply isDigit_not_LF, Hx.
Qed.

Lemma cut_line_app delim l r :
  Forall (fun b => byte_eqb b delim = false) l ->
  cut_line delim (l ++ delim :: r) = Some (l ++ [delim], r).
Proof.
  induction 1 as [|b l Hb _ IH]; simpl.
  - unfold byte_eqb. rewrite Ascii.eqb_refl. reflexivity.
  - rewrite Hb, IH. reflexivity.
Qed.

(** What [readLine] does with a line ended by LF: it fails on a line of
    less than three bytes, LF included, and otherwise returns the line
    without its last two bytes.  The byte before the LF is not looked at. *)
Lemma readLine_line c line rest :
  closed (conn c) = false ->
  Forall (fun b => byte_eqb b LF = false) line ->
  readLine (set_incoming (line ++ LF :: rest) c)
  = if len line <=? 1
    then Ok ([], Some ErrBadTerminator) (set_incoming rest c)
    else Ok (take (length line - 1) line, None) (set_incoming rest c).
Proof.
  intros Hc Hl. unfold readLine, bind, rb_ReadBytes. simpl. rewrite Hc.
  rewrite cut_line_app by exact Hl.
  assert (len (line ++ [LF]) - 2 = len line - 1) as ->.
  { unfold len. rewrite length_app. simpl. lia. }
  destruct (Z.leb_spec (len line - 1) 0); destruct (Z.leb_spec (len line) 1);
    try lia; [reflexivity|].
  unfold ret. rewrite take_app_le by (unfold len in *; lia).
  replace (Z.to_nat (len line - 1)) with (length line - 1)%nat by (unfold len; lia).
  reflexivity.
Qed.

(** Reading the header line [t p CR LF] of a reply. *)
Lemma readLine_header c t p rest n :
  closed (conn c) = false ->
  byte_eqb t LF = false ->
  ParseInt p = inl n ->
  incoming (conn c) = t :: p ++ CRLF ++ rest ->
  readLine c = Ok (t :: p, None) (set_incoming rest c).
Proof.
  intros Hc Ht Hp Hin.
  unfold readLine, bind, rb_ReadBytes. rewrite Hc, Hin.
  replace (t :: p ++ CRLF ++ rest) with ((t :: p ++ [CR]) ++ LF :: rest)
    by (simpl; rewrite <- app_assoc; reflexivity).
  rewrite cut_line_app.
  2: { constructor; [exact Ht|]. apply Forall_app. split.
       - eapply ParseInt_no_LF; eauto.
       - constructor; [reflexivity|constructor]. }
  assert (len ((t :: p ++ [CR]) ++ [LF]) - 2 = Z.of_nat (length (t :: p))) as ->.
  { unfold len. simpl. rewrite !length_app. simpl. lia. }
  destruct (Z.of_nat (length (t :: p)) <=? 0) eqn:E;
    [apply Z.leb_le in E; simpl in E; lia|].
  unfold ret. rewrite Nat2Z.id.
  replace ((t :: p ++ [CR]) ++ [LF]) with ((t :: p) ++ CRLF)
    by (simpl; rewrite <- app_assoc; reflexivity).
  rewrite take_app_length. reflexivity.
Qed.

(** ** Arrays *)

Lemma parseArray_loop_decode m : forall k done c vs c',
  decode_n m c = Some (vs, c') ->
  (unread c < k)%nat ->
  parseArray_loop readResponse k
    (Z.of_nat (length done + m)) (Z.of_nat (length done))
    (done ++ replicate m Nil) c
  = Ok (Some (done ++ vs), None) c'.
Proof.
  induction m as [|m IH]; intros k done c vs c' Hd Hk.
  - simpl in Hd. inversion Hd; subst.
    destruct k; simpl;
      (destruct (Z.ltb_spec (Z.of_nat (length done)) (Z.of_nat (length done + 0))); [lia|]);
      reflexivity.
  - destruct k as [|k]; [lia|]. simpl.
    destruct (Z.ltb_spec (Z.of_nat (length done)) (Z.of_nat (length done + S m))); [|lia].
    simpl in Hd. unfold bind.
    destruct (readResponse c) as [[v e] c1| |] eqn:Er; try discriminate.
    destruct e; [discriminate|].
    destruct (decode_n m c1) as [[vs1 c2]|] eqn:Ed; [|discriminate].
    inversion Hd; subst.
    destruct (readResponse_unread _ _ _ _ Er) as [_ Hlt]. specialize (Hlt eq_refl).
    rewrite Nat2Z.id.
    replace (length done) with (length done + 0)%nat at 3 by lia.
    rewrite insert_app_r. simpl.
    specialize (IH k (done ++ [v]) c1 vs1 c' Ed ltac:(lia)).
    rewrite length_app in IH. simpl in IH.
    replace (Z.of_nat (length done + 1 + m)) with (Z.of_nat (length done + S m)) in IH by lia.
    replace (Z.of_nat (length done + 1)) with (Z.of_nat (length done) + 1) in IH by lia.
    rewrite <- !app_assoc in IH. simpl in IH. exact IH.
Qed.

Lemma parseArray_decode p n c vs c' :
  ParseInt p = inl n -> 0 <= n ->
  decode_n (Z.to_nat n) c = Some (vs, c') ->
  parseArray p c = Ok (Some vs, None) c'.
Proof.
  intros Hp Hn Hd. unfold parseArray, parseArray_with. rewrite Hp.
  destruct (Z.eqb_spec n (-1)); [lia|]. destruct (Z.ltb_spec n 0); [lia|].
  pose proof (parseArray_loop_decode (Z.to_nat n) (enough c) [] c vs c' Hd) as Hl.
  simpl in Hl. rewrite Z2Nat.id in Hl by lia.
  apply Hl. unfold enough, unread. lia.
Qed.

Lemma wrap64_id z : min_int64 <= z <= max_int64 -> wrap64 z = z.
Proof.
  unfold wrap64, min_int64, max_int64. intros H.
  rewrite Z.mod_small; lia.
Qed.

Lemma decode_n_length n : forall c vs c',
  decode_n n c = Some (vs, c') -> length vs = n.
Proof.
  induction n as [|n IH]; intros c vs c' H; simpl in H.
  - inversion H; reflexivity.
  - destruct (readResponse c) as [[v [e|]] c1| |]; try discriminate.
    destruct (decode_n n c1) as [[vs1 c2]|] eqn:E; [|discriminate].
    inversion H; subst. simpl. f_equal. eauto.
Qed.

(** ** Bulk strings *)

Lemma parseBulkString_payload p n c rest :
  closed (conn c) = false ->
  ParseInt p = inl n ->
  0 <= n -> n + 2 <= max_int64 -> n + 2 <= len rest ->
  parseBulkString p (set_incoming rest c)
  = Ok (Bytes (take (Z.to_nat n) rest), None)
       (set_incoming (drop (Z.to_nat (n + 2)) rest) c).
Proof.
  intros Hc Hp Hn Hmax Hlen. unfold parseBulkString. rewrite Hp.
  destruct (Z.eqb_spec n (-1)); [lia|].
  rewrite wrap64_id by (unfold min_int64, max_int64 in *; lia).
  destruct (Z.ltb_spec (n + 2) 0); [lia|].
  unfold bind, rb_ReadFull. simpl. rewrite Hc.
  destruct (Z.to_nat (n + 2)) as [|k] eqn:Ek; [lia|]. rewrite <- Ek.
  unfold len in Hlen.
  destruct (Nat.leb_spec (Z.to_nat (n + 2)) (length rest)); [|lia].
  destruct (Z.ltb_spec n 0); [lia|]. destruct (Z.ltb_spec (n + 2) n); [lia|].
  simpl. unfold ret. rewrite take_take.
  replace (Z.to_nat n `min` Z.to_nat (n + 2))%nat with (Z.to_nat n) by lia.
  reflexivity.
Qed.

(** A bulk string whose payload and terminator are not all there: the
    input is used up and an error is returned. *)
Lemma parseBulkString_short p n c rest :
  closed (conn c) = false ->
  ParseInt p = inl n ->
  0 <= n -> n + 2 <= max_int64 -> len rest < n + 2 ->
  exists v e,
    parseBulkString p (set_incoming rest c) = Ok (v, Some e) (set_incoming [] c).
Proof.
  intros Hc Hp Hn Hmax Hlen. unfold parseBulkString. rewrite Hp.
  destruct (Z.eqb_spec n (-1)); [lia|].
  rewrite wrap64_id by (unfold min_int64, max_int64 in *; lia).
  destruct (Z.ltb_spec (n + 2) 0); [lia|].
  unfold bind, rb_ReadFull. simpl. rewrite Hc.
  destruct (Z.to_nat (n + 2)) as [|k] eqn:Ek; [lia|]. rewrite <- Ek.
  unfold len in Hlen.
  destruct (Nat.leb_spec (Z.to_nat (n + 2)) (length rest)); [lia|].
  destruct (Z.ltb_spec n 0); [lia|]. destruct (Z.ltb_spec (n + 2) n); [lia|].
  simpl. unfold ret. eauto.
Qed.

(** ** The decoder with the allocation limit *)

Lemma parseBulkString_lim_agrees p c :
  parseBulkString_lim p c = parseBulkString p c \/
  parseBulkString_lim p c = Panic "makeslice: len out of range".
Proof.
  unfold parseBulkString_lim, parseBulkString.
  destruct (ParseInt p) as [n|e]; [|left; reflexivity].
  destruct (n =? -1); [left; reflexivity|]. cbv zeta.
  destruct (wrap64 (n + 2) <? 0); [left; reflexivity|].
  destruct (wrap64 (n + 2) >? maxAlloc); [right; reflexivity|left; reflexivity].
Qed.

Lemma parseArray_loop_agrees (rl rr : M Conn (value * option error)) :
  (forall c, rl c = rr c \/ rl c = Panic "makeslice: len out of range") ->
  forall k n i res c,
    parseArray_loop rl k n i res c = parseArray_loop rr k n i res c \/
    parseArray_loop rl k n i res c = Panic "makeslice: len out of range".
Proof.
  intros H. induction k as [|k IH]; intros n i res c; simpl.
  - left. reflexivity.
  - destruct (i <? n); [|left; reflexivity]. unfold bind.
    destruct (H c) as [-> | ->]; [|right; reflexivity].
    destruct (rr c) as [[v [e|]] c1| |]; try (left; reflexivity).
    apply IH.
Qed.

Lemma readResponse_lim_fuel_agrees fuel : forall c,
  readResponse_lim_fuel fuel c = readResponse_fuel fuel c \/
  readResponse_lim_fuel fuel c = Panic "makeslice: len out of range".
Proof.
  induction fuel as [|fuel IH]; intros c; [left; reflexivity|].
  simpl. unfold bind.
  destruct (readLine c) as [[p [e|]] c0| |]; try (left; reflexivity).
  destruct p as [|t p]; [left; reflexivity|].
  destruct (byte_eqb t TypeError); [left; reflexivity|].
  destruct (byte_eqb t TypeIntegers); [left; reflexivity|].
  destruct (byte_eqb t TypeSimpleString); [left; reflexivity|].
  destruct (byte_eqb t TypeBulkString); [apply parseBulkString_lim_agrees|].
  destruct (byte_eqb t TypeArrays); [|left; reflexivity].
  unfold parseArray_lim_with, parseArray_with.
  destruct (ParseInt p) as [n|e]; [|left; reflexivity].
  destruct (n =? -1); [left; reflexivity|].
  destruct (n <? 0); [left; reflexivity|].
  destruct (interface_size * n >? maxAlloc); [right; reflexivity|]. simpl.
  destruct (parseArray_loop_agrees _ _ IH fuel n 0 (replicate (Z.to_nat n) Nil) c0)
    as [-> | ->]; [left|right]; reflexivity.
Qed.

(** The decoder with the limit gives what [readResponse] gives, or panics
    on an allocation. *)
Lemma readResponse_lim_agrees c :
  readResponse_lim c = readResponse c \/
  readResponse_lim c = Panic "makeslice: len out of range".
Proof. apply readResponse_lim_fuel_agrees. Qed.

Lemma readResponse_lim_total c : readResponse_lim c <> OutOfFuel.
Proof.
  destruct (readResponse_lim_agrees c) as [-> | ->];
    [apply readResponse_total|discriminate].
Qed.

Lemma readResponse_lim_Ok c r c' :
  readResponse_lim c = Ok r c' -> readResponse c = Ok r c'.
Proof.
  destruct (readResponse_lim_agrees c) as [-> | ->]; [auto|discriminate].
Qed.

Lemma decode_n_lim_decode_n n : forall c r,
  decode_n_lim n c = Some r -> decode_n n c = Some r.
Proof.
  induction n as [|n IH]; intros c r H; simpl in *; [exact H|].
  destruct (readResponse_lim c) as [[v [e|]] c1| |] eqn:E; try discriminate.
  rewrite (readResponse_lim_Ok _ _ _ E).
  destruct (decode_n_lim n c1) as [[vs c2]|] eqn:Ed; [|discriminate].
  rewrite (IH _ _ Ed). exact H.
Qed.

(** ** An array with an element that does not decode *)

Lemma parseArray_loop_fail j : forall m k done c vs c1 v e c2,
  decode_n j c = Some (vs, c1) ->
  readResponse c1 = Ok (v, Some e) c2 ->
  (j < m)%nat -> (unread c < k)%nat ->
  parseArray_loop readResponse k
    (Z.of_nat (length done + m)) (Z.of_nat (length done))
    (done ++ replicate m Nil) c
  = Ok (None, Some e) c2.
Proof.
  induction j as [|j IH]; intros m k done c vs c1 v e c2 Hd Hr Hj Hk.
  - simpl in Hd. inversion Hd; subst.
    destruct k as [|k]; [lia|]. simpl.
    destruct (Z.ltb_spec (Z.of_nat (length done)) (Z.of_nat (length done + m))); [|lia].
    unfold bind. rewrite Hr. reflexivity.
  - destruct m as [|m]; [lia|]. destruct k as [|k]; [lia|]. simpl.
    destruct (Z.ltb_spec (Z.of_nat (length done)) (Z.of_nat (length done + S m))); [|lia].
    simpl in Hd. unfold bind.
    destruct (readResponse c) as [[v0 e0] c0| |] eqn:Er; try discriminate.
    destruct e0; [discriminate|].
    destruct (decode_n j c0) as [[vs1 c3]|] eqn:Ed; [|discriminate].
    inversion Hd; subst.
    destruct (readResponse_unread _ _ _ _ Er) as [_ Hlt]. specialize (Hlt eq_refl).
    rewrite Nat2Z.id.
    replace (length done) with (length done + 0)%nat at 3 by lia.
    rewrite insert_app_r. simpl.
    specialize (IH m k (done ++ [v0]) c0 vs1 c1 v e c2 Ed Hr ltac:(lia) ltac:(lia)).
    rewrite length_app in IH. simpl in IH.
    replace (Z.of_nat (length done + 1 + m)) with (Z.of_nat (length done + S m)) in IH by lia.
    replace (Z.of_nat (length done + 1)) with (Z.of_nat (length done) + 1) in IH by lia.
    rewrite <- !app_assoc in IH. simpl in IH. exact IH.
Qed.

Lemma parseArray_fail p n j c vs c1 v e c2 :
  ParseInt p = inl n -> (j < Z.to_nat n)%nat ->
  decode_n j c = Some (vs, c1) ->
  readResponse c1 = Ok (v, Some e) c2 ->
  parseArray p c = Ok (None, Some e) c2.
Proof.
  intros Hp Hj Hd Hr. unfold parseArray, parseArray_with. rewrite Hp.
  destruct (Z.eqb_spec n (-1)); [lia|]. destruct (Z.ltb_spec n 0); [lia|].
  pose proof (parseArray_loop_fail j (Z.to_nat n) (enough c) [] c vs c1 v e c2
                Hd Hr Hj) as Hl.
  simpl in Hl. rewrite Z2Nat.id in Hl by lia.
  apply Hl. unfold enough, unread. lia.
Qed.

(** C4: a bulk-string reply whose header line is [$n] decodes to the null
    bulk string (the nil interface) when [n = -1], reading nothing after the
    header; for a length [n >= 0] within the allocation limit whose [n + 2]
    bytes are there, it reads these [n + 2] bytes and returns the first [n]
    of them.  An array reply [*-1] decodes to the null array (a nil slice);
    [*n] with [n >= 0] within the allocation limit decodes replies one after
    the other, each from where the one before stopped, until [n] are decoded
    or one fails: when all [n] decode it returns them in the order read, and
    when one fails it returns a nil slice with the error of that one and
    reads no further. *)
Theorem C4_bulk_string_and_array (c : Conn) (p rest : bytes) (n : Z) :
  closed (conn c) = false ->
  ParseInt p = inl n ->
  (n = -1 ->
     readResponse (set_incoming (TypeBulkString :: p ++ CRLF ++ rest) c)
       = Ok (Nil, None) (set_incoming rest c) /\
     readResponse (set_incoming (TypeArrays :: p ++ CRLF ++ rest) c)
       = Ok (Slice None, None) (set_incoming rest c))
  /\
  (0 <= n ->
     (n + 2 <= maxAlloc -> n + 2 <= len rest ->
        readResponse (set_incoming (TypeBulkString :: p ++ CRLF ++ rest) c)
          = Ok (Bytes (take (Z.to_nat n) rest), None)
               (set_incoming (drop (Z.to_nat (n + 2)) rest) c)) /\
     (interface_size * n <= maxAlloc ->
        (forall vs c',
           decode_n_lim (Z.to_nat n) (set_incoming rest c) = Some (vs, c') ->
           len vs = n /\
           readResponse (set_incoming (TypeArrays :: p ++ CRLF ++ rest) c)
             = Ok (Slice (Some vs), None) c') /\
        (forall (j : nat) vs c1 v e c2,
           (j < Z.to_nat n)%nat ->
           decode_n_lim j (set_incoming rest c) = Some (vs, c1) ->
           readResponse_lim c1 = Ok (v, Some e) c2 ->
           readResponse (set_incoming (TypeArrays :: p ++ CRLF ++ rest) c)
             = Ok (Slice None, Some e) c2))).
Proof.
  intros Hc Hp.
  assert (Hbulk : readLine (set_incoming (TypeBulkString :: p ++ CRLF ++ rest) c)
                  = Ok (TypeBulkString :: p, None) (set_incoming rest c)).
  { erewrite readLine_header; eauto. }
  assert (Harr : readLine (set_incoming (TypeArrays :: p ++ CRLF ++ rest) c)
                 = Ok (TypeArrays :: p, None) (set_incoming rest c)).
  { erewrite readLine_header; eauto. }
  split.
  - intros ->. split.
    + rewrite readResponse_eq. unfold bind. rewrite Hbulk. simpl.
      unfold parseBulkString. rewrite Hp. reflexivity.
    + rewrite readResponse_eq. unfold bind. rewrite Harr. simpl.
      unfold parseArray, parseArray_with. rewrite Hp. reflexivity.
  - intros Hn. split.
    + intros Hmax Hlen.
      rewrite readResponse_eq. unfold bind. rewrite Hbulk. simpl.
      apply parseBulkString_payload; auto.
      unfold maxAlloc, max_int64 in *. lia.
    + intros _. split.
      * intros vs c' Hd. apply decode_n_lim_decode_n in Hd. split.
        -- unfold len. rewrite (decode_n_length _ _ _ _ Hd). lia.
        -- rewrite readResponse_eq. unfold bind. rewrite Harr. simpl.
           rewrite (parseArray_decode p n _ vs c' Hp Hn Hd). reflexivity.
      * intros j vs c1 v e c2 Hj Hd Hr.
        apply decode_n_lim_decode_n in Hd. apply readResponse_lim_Ok in Hr.
        rewrite readResponse_eq. unfold bind. rewrite Harr. simpl.
        rewrite (parseArray_fail p n j _ vs c1 v e c2 Hp Hj Hd Hr). reflexivity.
Qed.

(** C4, where the claim as written fails: the array reply [*2] whose first
    element is an Error reply is decoded as far as that element only, the
    second reply stays unread; and the bulk-string header [$-2], which is
    not [-1], makes the decoder panic instead of reading [n + 2 = 0] bytes
    and returning a payload. *)
Lemma C4_array_stops_at_first_error :
  readResponse (fresh_conn (B "*2" ++ CRLF ++ B "-ERR x" ++ CRLF ++ B "+OK" ++ CRLF))
  = Ok (Slice None, Some (errors_New (B "CommonError:ERR x")))
       (fresh_conn (B "+OK" ++ CRLF)) /\
  readResponse_lim (fresh_conn (B "*2" ++ CRLF ++ B "-ERR x" ++ CRLF ++ B "+OK" ++ CRLF))
  = Ok (Slice None, Some (errors_New (B "CommonError:ERR x")))
       (fresh_conn (B "+OK" ++ CRLF)) /\
  readResponse (fresh_conn (B "$-2" ++ CRLF)) = Panic "slice bounds out of range" /\
  readResponse_lim (fresh_conn (B "$-2" ++ CRLF)) = Panic "slice bounds out of range".
Proof. repeat split; reflexivity. Qed.

(** ** The encoder and [Call] are total *)

Ltac no_fuel :=
  unfold bind, ret, get, put, panic;
  repeat (match goal with
          | |- context [match ?x with _ => _ end] => destruct x eqn:?
          end; try congruence).

Lemma buffer_store_fuel pos b c : buffer_store pos b c <> OutOfFuel.
Proof. unfold buffer_store. no_fuel. Qed.

Lemma wb_Write_fuel p c : wb_Write p c <> OutOfFuel.
Proof. unfold wb_Write. no_fuel. Qed.

Lemma wb_Flush_fuel c : wb_Flush c <> OutOfFuel.
Proof. unfold wb_Flush. no_fuel. Qed.

Lemma writeLen_loop_fuel k : forall i pos c, writeLen_loop k i pos c <> OutOfFuel.
Proof.
  induction k as [|k IH]; intros i pos c; simpl; [discriminate|].
  destruct (negb (i =? 0) && (pos >=? 0)); [|discriminate].
  unfold bind. pose proof (buffer_store_fuel pos (byte_of_Z (Z.rem i 10 + 48)) c).
  destruct (buffer_store pos _ c); [apply IH|discriminate|congruence].
Qed.

Lemma writeLen_fuel prefix n c : writeLen prefix n c <> OutOfFuel.
Proof.
  unfold writeLen, bind, get, ret.
  pose proof buffer_store_fuel. pose proof writeLen_loop_fuel. pose proof wb_Write_fuel.
  repeat (match goal with
          | |- context [match ?x with _ => _ end] =>
              let E := fresh in destruct x eqn:E; try congruence;
              try (exfalso; eapply buffer_store_fuel; exact E);
              try (exfalso; eapply writeLen_loop_fuel; exact E);
              try (exfalso; eapply wb_Write_fuel; exact E)
          end).
Qed.

Lemma writeString_fuel s c : writeString s c <> OutOfFuel.
Proof.
  unfold writeString, bind, ret.
  repeat (match goal with
          | |- context [match ?x with _ => _ end] =>
              let E := fresh in destruct x eqn:E; try congruence;
              try (exfalso; eapply writeLen_fuel; exact E);
              try (exfalso; eapply wb_Write_fuel; exact E)
          end).
Qed.

Lemma writeBytes_fuel b c : writeBytes b c <> OutOfFuel.
Proof. exact (writeString_fuel b c). Qed.

Lemma writeArg_fuel a c : writeArg a c <> OutOfFuel.
Proof.
  destruct a as [n|n|t|s|b|[]| |t]; simpl;
    unfold writeInt64, writeFloat64;
    first [apply writeString_fuel | apply writeBytes_fuel].
Qed.

Lemma writeRequest_loop_fuel args : forall e c, writeRequest_loop args e c <> OutOfFuel.
Proof.
  induction args as [|a args IH]; intros e c; simpl; [discriminate|].
  destruct e; [discriminate|]. unfold bind.
  pose proof (writeArg_fuel a c). destruct (writeArg a c); [apply IH|discriminate|congruence].
Qed.

Lemma writeRequest_fuel command args c : writeRequest command args c <> OutOfFuel.
Proof.
  unfold writeRequest, bind, ret.
  pose proof (writeLen_fuel "*"%char (1 + len args) c).
  destruct (writeLen _ _ c) as [[e|] c1| |]; try congruence.
  pose proof (writeString_fuel command c1).
  destruct (writeString command c1) as [[e|] c2| |]; try congruence.
  apply writeRequest_loop_fuel.
Qed.

Lemma on_conn_fuel {A} c (m : M Conn A) w :
  (forall x, m x <> OutOfFuel) -> on_conn c m w <> OutOfFuel.
Proof.
  intros Hm. unfold on_conn. destruct (conns w !! c) as [x|]; [|discriminate].
  specialize (Hm x). destruct (m x); congruence.
Qed.

Lemma bind_fuel {S A C} (m : M S A) (k : A -> M S C) s :
  m s <> OutOfFuel -> (forall a s', k a s' <> OutOfFuel) -> bind m k s <> OutOfFuel.
Proof.
  intros Hm Hk. unfold bind. destruct (m s); [apply Hk|discriminate|congruence].
Qed.

Lemma load_fuel c w : load c w <> OutOfFuel.
Proof. unfold load. no_fuel. Qed.

Lemma SetDeadline_fuel c : SetDeadline c <> OutOfFuel.
Proof. unfold SetDeadline. no_fuel. Qed.

Ltac fuel_step :=
  first [ apply writeRequest_fuel
        | apply wb_Flush_fuel
        | apply readResponse_total
        | apply load_fuel
        | apply SetDeadline_fuel
        | apply on_conn_fuel; intros
        | match goal with
          | |- (match ?x with _ => _ end) _ <> _ => destruct x
          | |- (if ?x then _ else _) _ <> _ => destruct x
          end
        | discriminate
        | apply bind_fuel; [|intros] ].

(** [Call] returns or panics: the decoder never lacks fuel. *)
Lemma Call_total c command args w : Call c command args w <> OutOfFuel.
Proof. unfold Call. repeat fuel_step. Qed.

(** ** One turn of the retry loop *)

(** A turn whose [Call] does not fail at the transport level goes on to the
    next turn on the same connection, from the world [Call] left. *)
Lemma CallN_loop_next k c command args r0 e0 w r e w1 :
  Call c command args w = Ok (r, e) w1 ->
  transport_failure e = false ->
  CallN_loop (S k) c command args r0 e0 w = CallN_loop k c command args r e w1.
Proof.
  intros HC Ht. simpl. unfold bind. rewrite HC, Ht. reflexivity.
Qed.

(** ** Call *)



(** ** The encoder *)

Lemma formatBits_app k : forall u a, formatBits k u a = formatBits k u [] ++ a.
Proof.
  induction k as [|k IH]; intros u a; simpl; [reflexivity|].
  destruct (u >=? 10); [|reflexivity].
  rewrite IH, (IH _ [_]), <- app_assoc. reflexivity.
Qed.

Lemma buffer_store_ok pos b c :
  0 <= pos < len (buffer c) ->
  buffer_store pos b c = Ok tt (set_buffer (<[Z.to_nat pos := b]> (buffer c)) c).
Proof.
  intros H. unfold buffer_store.
  destruct (Z.leb_spec 0 pos); [|lia]. destruct (Z.ltb_spec pos (len (buffer c))); [|lia].
  reflexivity.
Qed.

Lemma set_buffer_set_buffer b b' c : set_buffer b (set_buffer b' c) = set_buffer b c.
Proof. reflexivity. Qed.

Lemma drop_store (buf : bytes) (i : nat) b :
  (i < length buf)%nat -> drop i (<[i := b]> buf) = b :: drop (S i) buf.
Proof.
  intros H. erewrite drop_S by (apply list_lookup_insert_eq; exact H).
  rewrite drop_insert_lt by lia. reflexivity.
Qed.

(** The digit loop of [writeLen] leaves, right of [pos'], the digits that
    [formatBits] gives, in front of what was right of [pos]. *)
Lemma writeLen_loop_digits k : forall f i pos c,
  0 < i < 10 ^ Z.of_nat k -> (k <= f)%nat ->
  Z.of_nat k <= pos -> pos < len (buffer c) ->
  exists pos' buf',
    writeLen_loop f i pos c = Ok pos' (set_buffer buf' c) /\
    length buf' = length (buffer c) /\
    0 <= pos' < pos /\
    drop (Z.to_nat (pos' + 1)) buf'
    = formatBits k i (drop (Z.to_nat (pos + 1)) (buffer c)).
Proof.
  induction k as [|k IH]; intros f i pos c Hi Hf Hk Hpos.
  - simpl in Hi. lia.
  - destruct f as [|f]; [lia|]. simpl writeLen_loop.
    destruct (Z.eqb_spec i 0); [lia|]. destruct (Z.geb_spec pos 0); [|lia].
    unfold bind. cbv beta iota delta [negb andb].
    rewrite buffer_store_ok by lia.
    rewrite Z.rem_mod_nonneg, Z.quot_div_nonneg by lia.
    set (d := byte_of_Z (i mod 10 + 48)).
    set (c1 := set_buffer (<[Z.to_nat pos := d]> (buffer c)) c).
    assert (Hd : drop (Z.to_nat pos) (buffer c1) = d :: drop (Z.to_nat (pos + 1)) (buffer c)).
    { simpl. rewrite drop_store by (unfold len in Hpos; lia).
      replace (Z.to_nat (pos + 1)) with (S (Z.to_nat pos)) by lia. reflexivity. }
    simpl formatBits. destruct (Z.geb_spec i 10) as [Hge|Hlt].
    + destruct (IH f (i / 10) (pos - 1) c1) as (pos' & buf' & Hrun & Hlen & Hp & Hdrop).
      * split; [apply Z.div_str_pos; lia|].
        apply Z.div_lt_upper_bound; [lia|].
        rewrite Nat2Z.inj_succ, Z.pow_succ_r in Hi by lia. lia.
      * lia.
      * lia.
      * unfold len in *. simpl. rewrite length_insert. lia.
      * exists pos', buf'. split; [exact Hrun|]. split.
        { rewrite Hlen. simpl. apply length_insert. }
        split; [lia|].
        rewrite Hdrop. replace (pos - 1 + 1) with pos by lia. rewrite Hd. reflexivity.
    + exists (pos - 1), (buffer c1). split.
      * rewrite Z.div_small by lia. destruct f; reflexivity.
      * split; [simpl; apply length_insert|]. split; [lia|].
        replace (pos - 1 + 1) with pos by lia. rewrite Hd.
        unfold d. rewrite Z.mod_small by lia. reflexivity.
Qed.

Lemma max_int64_digits n : n <= max_int64 -> n < 10 ^ Z.of_nat 20.
Proof. unfold max_int64. intros H. change (10 ^ Z.of_nat 20) with 100000000000000000000. lia. Qed.

(** [writeLen] appends the type byte, the digits of [n] (none for zero) and
    CR LF to the bytes to send. *)
Lemma writeLen_spec prefix n c :
  len (buffer c) = DefaultBufferSize -> werr (wb c) = None ->
  0 <= n <= max_int64 ->
  exists buf',
    writeLen prefix n c = Ok None (wrote buf' (prefix :: lenDigits n ++ CRLF) c) /\
    len buf' = DefaultBufferSize.
Proof.
  unfold DefaultBufferSize. intros Hb Hw Hn.
  assert (Hl : length (buffer c) = 64%nat) by (unfold len in Hb; lia).
  unfold writeLen, bind, get. rewrite Hb.
  rewrite buffer_store_ok by (rewrite Hb; lia).
  rewrite buffer_store_ok by (unfold len; simpl; rewrite length_insert; lia).
  simpl buffer. rewrite set_buffer_set_buffer.
  set (b2 := <[Z.to_nat (64 - 1 - 1) := CR]> (<[Z.to_nat (64 - 1) := LF]> (buffer c))).
  assert (Hl2 : length b2 = 64%nat) by (unfold b2; rewrite !length_insert; exact Hl).
  assert (Htail : drop 62 b2 = CRLF).
  { unfold b2. change (Z.to_nat (64 - 1 - 1)) with 62%nat.
    change (Z.to_nat (64 - 1)) with 63%nat.
    rewrite drop_store by (rewrite length_insert; lia).
    rewrite drop_store by lia.
    rewrite drop_ge by lia. reflexivity. }
  change (64 - 1 - 1 - 1) with 61. change (Z.to_nat (61 + 1)) with 62%nat.
  unfold lenDigits. destruct (Z.eqb_spec n 0) as [->|Hn0].
  - simpl writeLen_loop. unfold ret.
    rewrite buffer_store_ok by (unfold len; simpl; lia).
    simpl buffer. unfold wb_Write. simpl. rewrite Hw.
    change (Z.to_nat 61) with 61%nat.
    rewrite drop_store by lia. rewrite Htail.
    exists (<[61%nat := prefix]> b2). split; [reflexivity|].
    unfold len. rewrite length_insert. lia.
  - destruct (writeLen_loop_digits 20 62 n 61 (set_buffer b2 c))
      as (pos' & buf' & Hrun & Hlen & Hp & Hdrop).
    + split; [lia|]. apply max_int64_digits. lia.
    + lia.
    + simpl. lia.
    + unfold len. simpl. lia.
    + simpl in Hlen. change (set_buffer buf' (set_buffer b2 c)) with (set_buffer buf' c) in Hrun.
      rewrite Hrun. rewrite buffer_store_ok by (unfold len; simpl; lia).
      simpl buffer. unfold wb_Write. simpl. rewrite Hw.
      rewrite drop_store by lia.
      replace (S (Z.to_nat pos')) with (Z.to_nat (pos' + 1)) by lia.
      rewrite Hdrop. simpl buffer. change (Z.to_nat (61 + 1)) with 62%nat.
      rewrite Htail, formatBits_app.
      unfold AppendInt. destruct (Z.ltb_spec n 0); [lia|].
      exists (<[Z.to_nat pos' := prefix]> buf'). split; [reflexivity|].
      unfold len. rewrite length_insert. lia.
Qed.

Lemma wrote_wrote b1 p1 b2 p2 c :
  wrote b2 p2 (wrote b1 p1 c) = wrote b2 (p1 ++ p2) c.
Proof. unfold wrote. simpl. rewrite <- app_assoc. reflexivity. Qed.

Lemma wb_Write_wrote p buf q c :
  wb_Write p (wrote buf q c) = Ok None (wrote buf (q ++ p) c).
Proof. unfold wb_Write, wrote. simpl. rewrite <- app_assoc. reflexivity. Qed.

(** [writeString] appends the frame of [s]. *)
Lemma writeString_spec s c :
  len (buffer c) = DefaultBufferSize -> werr (wb c) = None ->
  len s <= max_int64 ->
  exists buf',
    writeString s c = Ok None (wrote buf' (frame s) c) /\
    len buf' = DefaultBufferSize.
Proof.
  intros Hb Hw Hs.
  destruct (writeLen_spec "$"%char (len s) c Hb Hw) as (buf' & Hrun & Hlen);
    [unfold len in *; lia|].
  exists buf'. split; [|exact Hlen].
  unfold writeString, bind. rewrite Hrun.
  rewrite wb_Write_wrote, wb_Write_wrote. unfold ret, frame.
  f_equal. f_equal. simpl. rewrite <- !app_assoc. reflexivity.
Qed.

Lemma writeBytes_spec b c :
  len (buffer c) = DefaultBufferSize -> werr (wb c) = None ->
  len b <= max_int64 ->
  exists buf',
    writeBytes b c = Ok None (wrote buf' (frame b) c) /\
    len buf' = DefaultBufferSize.
Proof. exact (writeString_spec b c). Qed.

Lemma writeArg_spec a c :
  len (buffer c) = DefaultBufferSize -> werr (wb c) = None ->
  len (arg_text a) <= max_int64 ->
  exists buf',
    writeArg a c = Ok None (wrote buf' (frame (arg_text a)) c) /\
    len buf' = DefaultBufferSize.
Proof.
  destruct a as [n|n|t|s|b|[]| |t]; simpl;
    unfold writeInt64, writeFloat64;
    first [apply writeString_spec | apply writeBytes_spec].
Qed.

Lemma writeRequest_loop_spec args : forall c,
  len (buffer c) = DefaultBufferSize -> werr (wb c) = None ->
  Forall (fun a => len (arg_text a) <= max_int64) args ->
  exists buf',
    writeRequest_loop args None c
    = Ok None (wrote buf' (concat (map (fun a => frame (arg_text a)) args)) c) /\
    len buf' = DefaultBufferSize.
Proof.
  induction args as [|a args IH]; intros c Hb Hw Hargs.
  - exists (buffer c). split; [|exact Hb].
    simpl. unfold ret, wrote. rewrite app_nil_r.
    destruct c as [? ? ? ? ? [? ?] ? ? ?]. simpl in *. subst. reflexivity.
  - inversion Hargs as [|? ? Ha Hrest]; subst.
    destruct (writeArg_spec a c Hb Hw Ha) as (b1 & Hrun & Hl1).
    destruct (IH (wrote b1 (frame (arg_text a)) c) Hl1 eq_refl Hrest)
      as (b2 & Hrun2 & Hl2).
    exists b2. split; [|exact Hl2].
    simpl. unfold bind. rewrite Hrun, Hrun2, wrote_wrote. reflexivity.
Qed.

(** [writeRequest] appends the array header and the frames of the verb and
    of the arguments, in order. *)
Lemma writeRequest_spec command args c :
  len (buffer c) = DefaultBufferSize -> werr (wb c) = None ->
  len command <= max_int64 -> 1 + len args <= max_int64 ->
  Forall (fun a => len (arg_text a) <= max_int64) args ->
  exists buf',
    writeRequest command args c = Ok None (wrote buf' (request command args) c) /\
    len buf' = DefaultBufferSize.
Proof.
  intros Hb Hw Hc Hn Hargs.
  destruct (writeLen_spec "*"%char (1 + len args) c Hb Hw) as (b1 & Hrun1 & Hl1);
    [unfold len in *; lia|].
  destruct (writeString_spec command (wrote b1 ("*"%char :: lenDigits (1 + len args) ++ CRLF) c)
              Hl1 eq_refl Hc) as (b2 & Hrun2 & Hl2).
  rewrite wrote_wrote in Hrun2.
  destruct (writeRequest_loop_spec args
              (wrote b2 (("*"%char :: lenDigits (1 + len args) ++ CRLF) ++ frame command) c)
              Hl2 eq_refl Hargs) as (b3 & Hrun3 & Hl3).
  rewrite wrote_wrote in Hrun3.
  exists b3. split; [|exact Hl3].
  unfold writeRequest, bind. rewrite Hrun1, Hrun2, Hrun3.
  unfold request, frame. f_equal. f_equal.
  repeat (rewrite <- app_assoc || rewrite <- app_comm_cons). reflexivity.
Qed.

(** ** The SET scenario *)


(** ** The retry wrapper *)

(** C1: with two attempts allowed and an Error reply to the first one,
    [CallN] does not return that error: the first [Call] fails with an error
    that carries the prefix, the request is sent a second time on the same
    connection, and the reply to the second request is what [CallN]
    returns.  When the second attempt then meets a closed stream, [CallN]
    sleeps, closes the connection and takes connection 1 from the pool. *)
Theorem C1_CallN_calls_again_after_protocol_error :
  result (Call 0%nat (B "INCR") INCR_k world_error_then_reply)
    = Some (Nil, Some (errors_New (CommonErrPrefix ++ B "ERR x"))) /\
  transport_failure (Some (errors_New (CommonErrPrefix ++ B "ERR x"))) = false /\
  (let r := CallN 0%nat 2 (B "INCR") INCR_k world_error_then_reply in
   result r = Some (Bytes (B "B"), None) /\
   (final r ≫= sent_on 0%nat) = Some (INCR_k_wire ++ INCR_k_wire)) /\
  (let r := CallN 0%nat 3 (B "INCR") INCR_k world_error_then_EOF in
   result r = Some (Bytes (B "B"), None) /\
   (now <$> final r) = Some RetryWaitSeconds /\
   (final r ≫= closed_on 0%nat) = Some true /\
   (idle <$> (thePool <$> final r)) = Some [] /\
   (final r ≫= sent_on 1%nat) = Some INCR_k_wire).
Proof. vm_compute. repeat split; reflexivity. Qed.

(** C2: with two attempts allowed and a first attempt that succeeds with
    the reply [A], [CallN] sends the request a second time and returns the
    reply [B] to that second request.  With three attempts allowed, a first
    attempt that meets a closed stream and a second one that succeeds on the
    connection taken from the pool, [CallN] makes a third attempt on that
    connection, which fails, and returns a nil reply with the error [EOF]. *)
Theorem C2_CallN_calls_again_after_success :
  result (Call 0%nat (B "INCR") INCR_k world_two_replies)
    = Some (Bytes (B "A"), None) /\
  (let r := CallN 0%nat 2 (B "INCR") INCR_k world_two_replies in
   result r = Some (Bytes (B "B"), None) /\
   (final r ≫= sent_on 0%nat) = Some (INCR_k_wire ++ INCR_k_wire) /\
   (CallNum <$> (thePool <$> final r)) = Some 2) /\
  (let r := CallN 0%nat 2 (B "INCR") INCR_k world_EOF_then_reply in
   result r = Some (Bytes (B "B"), None)) /\
  (let r := CallN 0%nat 3 (B "INCR") INCR_k world_EOF_then_reply in
   result r = Some (Nil, Some io_EOF) /\
   (final r ≫= sent_on 1%nat) = Some (INCR_k_wire ++ INCR_k_wire) /\
   (final r ≫= closed_on 1%nat) = Some true).
Proof. vm_compute. repeat split; reflexivity. Qed.

(** ** Lines *)

(** C5: the line [+OK LF], which has no CR before its LF, is accepted by
    [readLine]: the byte before the LF is dropped unseen and the line read
    is [+O], so [readResponse] decodes the simple string [O]. *)
Theorem C5_readLine_accepts_bare_LF :
  result (readLine (fresh_conn (B "+OK" ++ [LF]))) = Some (B "+O", None) /\
  result (readResponse (fresh_conn (B "+OK" ++ [LF]))) = Some (Bytes (B "O"), None).
Proof. vm_compute. split; reflexivity. Qed.

(** ** Length prefixes *)

(** C6: the empty string is written as [$ CR LF CR LF], with no digit after
    the [$]; so is the argument nil, here the second argument of a SET. *)
Theorem C6_empty_argument_has_no_length_digit :
  written (writeString [] (fresh_conn [])) = Some (B "$" ++ CRLF ++ CRLF) /\
  written (writeRequest (B "SET") [AString (B "k"); ANil] (fresh_conn []))
    = Some (B "*3" ++ CRLF ++ B "$3" ++ CRLF ++ B "SET" ++ CRLF ++
            B "$1" ++ CRLF ++ B "k" ++ CRLF ++ B "$" ++ CRLF ++ CRLF).
Proof. vm_compute. split; reflexivity. Qed.

(** ** Pipelining *)

(** C7: with two requests pending and an Error reply to the first one,
    [PipeExec] goes on to decode the second reply and returns the slots with
    a nil error: the error of the first reply is lost.  [parseArray], on the
    same two replies as the elements of an array, stops at the first one and
    returns its error, leaving the second unread. *)
Theorem C7_PipeExec_loses_first_error :
  result (pipeline_error_then_OK (fresh_conn (B "-ERR x" ++ CRLF ++ B "+OK" ++ CRLF)))
    = Some (Some [Nil; Bytes (B "OK")], None) /\
  (let r := parseArray (B "2") (fresh_conn (B "-ERR x" ++ CRLF ++ B "+OK" ++ CRLF)) in
   result r = Some (None, Some (errors_New (CommonErrPrefix ++ B "ERR x"))) /\
   left_unread r = Some (B "+OK" ++ CRLF)).
Proof. vm_compute. repeat split; reflexivity. Qed.

(** ** Transactions *)

(** C8: when the reply to EXEC is the null array, [TransExec] returns a nil
    slice with a nil error, not [ErrNil]: the nil slice that [parseArray]
    returns is not the nil interface by the time [TransExec] tests it.
    [ErrNil] is what a null bulk string gives. *)
Theorem C8_TransExec_null_array_is_not_ErrNil :
  result (Call 0%nat (B "EXEC") [] (world_one_reply (B "*-1" ++ CRLF)))
    = Some (Slice None, None) /\
  result (TransExec 0%nat (world_one_reply (B "*-1" ++ CRLF))) = Some (None, None) /\
  result (TransExec 0%nat (world_one_reply (B "$-1" ++ CRLF))) = Some (None, Some ErrNil).
Proof. vm_compute. repeat split; reflexivity. Qed.

Lemma Watch_loop_id k : forall i args, Watch_loop k i args = args.
Proof.
  induction k as [|k IH]; intros i args; simpl; [reflexivity|].
  destruct (args !! i) as [key|] eqn:E; [|reflexivity].
  rewrite list_insert_id by exact E. apply IH.
Qed.

(** C9: whatever the keys, [Watch] sends WATCH with one nil argument per
    key and none of the keys; for the keys [a] and [b] the bytes sent are
    [*3 $5 WATCH $ $], and the call succeeds on the reply [+OK]. *)
Theorem C9_Watch_sends_no_key :
  (forall c keys w,
     Watch c keys w
     = (let! r := Call c (B "WATCH") (replicate (length keys) ANil) in
        ret (expect is_OK r)) w) /\
  (let r := Watch 0%nat [B "a"; B "b"] (world_one_reply (B "+OK" ++ CRLF)) in
   result r = Some None /\
   (final r ≫= sent_on 0%nat)
     = Some (B "*3" ++ CRLF ++ B "$5" ++ CRLF ++ B "WATCH" ++ CRLF ++
             B "$" ++ CRLF ++ CRLF ++ B "$" ++ CRLF ++ CRLF)).
Proof.
  split.
  - intros c keys w. unfold Watch. rewrite Watch_loop_id. reflexivity.
  - vm_compute. split; reflexivity.
Qed.

(** ** Witnesses *)


Lemma C4_bulk_string_and_array_witness :
  (readResponse (set_incoming (B "$-1" ++ CRLF ++ B "+x" ++ CRLF) (fresh_conn []))
     = Ok (Nil, None) (set_incoming (B "+x" ++ CRLF) (fresh_conn [])) /\
   readResponse (set_incoming (B "*-1" ++ CRLF ++ B "+x" ++ CRLF) (fresh_conn []))
     = Ok (Slice None, None) (set_incoming (B "+x" ++ CRLF) (fresh_conn []))) /\
  readResponse (set_incoming (B "$3" ++ CRLF ++ B "abc" ++ CRLF ++ B "+x" ++ CRLF) (fresh_conn []))
    = Ok (Bytes (B "abc"), None) (set_incoming (B "+x" ++ CRLF) (fresh_conn [])) /\
  readResponse (set_incoming (B "*2" ++ CRLF ++ B ":12" ++ CRLF ++ B "$1" ++ CRLF ++ B "a" ++ CRLF ++ B "+x" ++ CRLF) (fresh_conn []))
    = Ok (Slice (Some [Int64 12; Bytes (B "a")]), None)
         (set_incoming (B "+x" ++ CRLF) (fresh_conn [])) /\
  readResponse (set_incoming (B "*3" ++ CRLF ++ B ":12" ++ CRLF ++ B ":1x" ++ CRLF ++ B "+x" ++ CRLF) (fresh_conn []))
    = Ok (Slice None,
          Some (errors_New (CommonErrPrefix ++ NumError_text (B "1x") ErrSyntax)))
         (set_incoming (B "+x" ++ CRLF) (fresh_conn [])).
Proof.
  split; [|split; [|split]].
  - destruct (C4_bulk_string_and_array (fresh_conn []) (B "-1") (B "+x" ++ CRLF) (-1)
                eq_refl eq_refl) as [Hnull _].
    exact (Hnull eq_refl).
  - destruct (C4_bulk_string_and_array (fresh_conn []) (B "3")
                (B "abc" ++ CRLF ++ B "+x" ++ CRLF) 3 eq_refl eq_refl) as [_ Hlen].
    destruct (Hlen ltac:(lia)) as [Hbulk _].
    apply Hbulk.
    + unfold maxAlloc. lia.
    + vm_compute. discriminate.
  - destruct (C4_bulk_string_and_array (fresh_conn []) (B "2")
                (B ":12" ++ CRLF ++ B "$1" ++ CRLF ++ B "a" ++ CRLF ++ B "+x" ++ CRLF) 2
                eq_refl eq_refl) as [_ Hlen].
    destruct (Hlen ltac:(lia)) as [_ Harr].
    destruct (Harr ltac:(vm_compute; discriminate)) as [Hall _].
    destruct (Hall [Int64 12; Bytes (B "a")] (set_incoming (B "+x" ++ CRLF) (fresh_conn []))
                eq_refl) as [_ Hr].
    exact Hr.
  - destruct (C4_bulk_string_and_array (fresh_conn []) (B "3")
                (B ":12" ++ CRLF ++ B ":1x" ++ CRLF ++ B "+x" ++ CRLF) 3
                eq_refl eq_refl) as [_ Hlen].
    destruct (Hlen ltac:(lia)) as [_ Harr].
    destruct (Harr ltac:(vm_compute; discriminate)) as [_ Hstop].
    exact (Hstop 1%nat [Int64 12]
             (set_incoming (B ":1x" ++ CRLF ++ B "+x" ++ CRLF) (fresh_conn []))
             (Int64 0)
             (errors_New (CommonErrPrefix ++ NumError_text (B "1x") ErrSyntax))
             (set_incoming (B "+x" ++ CRLF) (fresh_conn []))
             ltac:(simpl; lia) eq_refl eq_refl).
Defined.


(** * Further properties *)

(** ** Decimal text: [AppendInt] and [ParseInt] *)

Lemma Z_of_byte_of_Z z : Z_of_byte (byte_of_Z z) = z mod 256.
Proof.
  unfold Z_of_byte, byte_of_Z.
  rewrite N_ascii_embedding.
  - apply Z2N.id. apply Z.mod_pos_bound. lia.
  - assert (0 <= z mod 256 < 256) by (apply Z.mod_pos_bound; lia). lia.
Qed.

Lemma digit_byte d :
  0 <= d <= 9 ->
  isDigit (byte_of_Z (d + 48)) = true /\ Z_of_byte (byte_of_Z (d + 48)) - 48 = d.
Proof.
  intros H. unfold isDigit. rewrite Z_of_byte_of_Z, Z.mod_small by lia.
  split; [|lia].
  destruct (Z.leb_spec 48 (d + 48)); [|lia].
  destruct (Z.leb_spec (d + 48) 57); [reflexivity|lia].
Qed.

Lemma digit_byte_not_sign d (s : ascii) :
  0 <= d <= 9 -> Z_of_byte s < 48 -> byte_eqb (byte_of_Z (d + 48)) s = false.
Proof.
  intros Hd Hs. unfold byte_eqb.
  destruct (Ascii.eqb_spec (byte_of_Z (d + 48)) s) as [E|]; [|reflexivity].
  rewrite <- E, Z_of_byte_of_Z, Z.mod_small in Hs by lia. lia.
Qed.

Lemma ParseUint_loop_app xs : forall ys acc m,
  ParseUint_loop xs acc = inl m ->
  ParseUint_loop (xs ++ ys) acc = ParseUint_loop ys m.
Proof.
  induction xs as [|x xs IH]; intros ys acc m H; simpl in *.
  - inversion H; reflexivity.
  - destruct (isDigit x); [|discriminate].
    destruct (acc >=? max_uint64 / 10 + 1); [discriminate|].
    destruct (acc * 10 + (Z_of_byte x - 48) >? max_uint64); [discriminate|].
    apply IH, H.
Qed.

Lemma ParseUint_loop_digit d acc :
  0 <= d <= 9 -> 0 <= acc -> acc * 10 + d <= max_uint64 ->
  ParseUint_loop [byte_of_Z (d + 48)] acc = inl (acc * 10 + d).
Proof.
  intros Hd Ha Hm. simpl.
  destruct (digit_byte d Hd) as [-> ->].
  unfold max_uint64 in *.
  change (2 ^ 64 - 1) with 18446744073709551615 in *.
  change (18446744073709551615 / 10 + 1) with 1844674407370955162.
  destruct (Z.geb_spec acc 1844674407370955162); [lia|].
  destruct (Z.gtb_spec (acc * 10 + d) 18446744073709551615); [lia|].
  reflexivity.
Qed.

(** The digits [formatBits] gives are read back by the digit loop of
    [ParseUint]. *)
Lemma ParseUint_loop_formatBits k : forall u,
  0 <= u < 10 ^ Z.of_nat k -> u <= max_uint64 ->
  ParseUint_loop (formatBits k u []) 0 = inl u.
Proof.
  induction k as [|k IH]; intros u Hu Hm.
  - simpl in *. assert (u = 0) as -> by lia. reflexivity.
  - simpl formatBits. destruct (Z.geb_spec u 10) as [Hge|Hlt].
    + rewrite formatBits_app.
      rewrite (ParseUint_loop_app _ _ 0 (u / 10)).
      * rewrite ParseUint_loop_digit.
        -- f_equal. pose proof (Z.div_mod u 10 ltac:(lia)). lia.
        -- pose proof (Z.mod_pos_bound u 10 ltac:(lia)). lia.
        -- apply Z.div_pos; lia.
        -- pose proof (Z.div_mod u 10 ltac:(lia)). lia.
      * apply IH.
        -- split; [apply Z.div_pos; lia|].
           apply Z.div_lt_upper_bound; [lia|].
           rewrite Nat2Z.inj_succ, Z.pow_succ_r in Hu by lia. lia.
        -- pose proof (Z.div_mod u 10 ltac:(lia)).
           pose proof (Z.mod_pos_bound u 10 ltac:(lia)). lia.
    + replace u with (0 * 10 + u) at 2 by lia.
      apply ParseUint_loop_digit; lia.
Qed.

Lemma formatBits_head k : forall u a,
  0 <= u ->
  exists d t, 0 <= d <= 9 /\ formatBits (S k) u a = byte_of_Z (d + 48) :: t.
Proof.
  induction k as [|k IH]; intros u a Hu.
  - simpl. destruct (Z.geb_spec u 10).
    + exists (u mod 10), a.
      split; [pose proof (Z.mod_pos_bound u 10 ltac:(lia)); lia|reflexivity].
    + exists u, a. split; [lia|reflexivity].
  - change (formatBits (S (S k)) u a)
      with (if u >=? 10
            then formatBits (S k) (u / 10) (byte_of_Z (u mod 10 + 48) :: a)
            else byte_of_Z (u + 48) :: a).
    destruct (Z.geb_spec u 10).
    + apply IH. apply Z.div_pos; lia.
    + exists u, a. split; [lia|reflexivity].
Qed.

(** What [AppendInt] prints, [ParseInt] reads back. *)
Lemma ParseInt_AppendInt n :
  min_int64 <= n <= max_int64 -> ParseInt (AppendInt n) = inl n.
Proof.
  unfold min_int64, max_int64. intros Hn. unfold AppendInt.
  destruct (Z.ltb_spec n 0) as [Hneg|Hpos].
  - destruct (formatBits_head 19 (- n) [] ltac:(lia)) as (d & t & Hd & Ht).
    unfold ParseInt.
    change (byte_eqb "-" "+") with false. change (byte_eqb "-" "-") with true.
    cbv iota beta zeta. simpl orb.
    unfold ParseUint. rewrite Ht, <- Ht.
    rewrite ParseUint_loop_formatBits.
    + simpl andb.
      destruct (Z.gtb_spec (- n) (2 ^ 63)); [lia|]. f_equal. lia.
    + change (10 ^ Z.of_nat 20) with 100000000000000000000. lia.
    + unfold max_uint64. lia.
  - destruct (formatBits_head 19 n [] ltac:(lia)) as (d & t & Hd & Ht).
    unfold ParseInt. rewrite Ht.
    rewrite !(digit_byte_not_sign d) by (try exact Hd; vm_compute; reflexivity).
    cbv iota beta zeta. simpl orb.
    unfold ParseUint. rewrite <- Ht.
    rewrite ParseUint_loop_formatBits.
    + simpl negb. simpl andb.
      destruct (Z.geb_spec n (2 ^ 63)); [lia|]. reflexivity.
    + change (10 ^ Z.of_nat 20) with 100000000000000000000. lia.
    + unfold max_uint64. lia.
Qed.

(** ** Round trips through the decoder *)




(** ** The decoder only reads *)

Lemma set_incoming_same c : set_incoming (incoming (conn c)) c = c.
Proof. destruct c as [? ? ? ? [? ? ? ?] ? ? ? ?]. reflexivity. Qed.

Lemma consumed_refl c : consumed c c.
Proof.
  exists [], (incoming (conn c)). split; [reflexivity|].
  symmetry. apply set_incoming_same.
Qed.

Lemma consumed_trans c c1 c2 : consumed c c1 -> consumed c1 c2 -> consumed c c2.
Proof.
  intros (u1 & r1 & H1 & ->) (u2 & r2 & H2 & ->). simpl in H2. subst r1.
  exists (u1 ++ u2), r2. split; [rewrite H1, app_assoc; reflexivity|reflexivity].
Qed.

Lemma consumed_reads c c' : consumed c c' -> exists s, c' = set_incoming s c.
Proof. intros (u & r & _ & ->). eauto. Qed.

Lemma rb_ReadBytes_consumed delim c r c' :
  rb_ReadBytes delim c = Ok r c' -> consumed c c'.
Proof.
  unfold rb_ReadBytes. intros H.
  destruct (closed (conn c)); [inversion H; subst; apply consumed_refl|].
  destruct (cut_line delim (incoming (conn c))) as [[l r0]|] eqn:E;
    inversion H; subst.
  - destruct (cut_line_split _ _ _ _ E) as [Hs _]. exists l, r0. auto.
  - exists (incoming (conn c)), []. split; [rewrite app_nil_r|]; reflexivity.
Qed.

Lemma rb_ReadFull_consumed n c r c' :
  rb_ReadFull n c = Ok r c' -> consumed c c'.
Proof.
  unfold rb_ReadFull. intros H.
  destruct n; [inversion H; subst; apply consumed_refl|].
  destruct (closed (conn c)); [inversion H; subst; apply consumed_refl|].
  destruct (S n <=? length (incoming (conn c)))%nat; inversion H; subst.
  - exists (take (S n) (incoming (conn c))), (drop (S n) (incoming (conn c))).
    split; [symmetry; apply take_drop|reflexivity].
  - exists (incoming (conn c)), []. split; [rewrite app_nil_r|]; reflexivity.
Qed.

Lemma readLine_consumed c r c' : readLine c = Ok r c' -> consumed c c'.
Proof.
  unfold readLine, bind, ret. intros H.
  destruct (rb_ReadBytes LF c) as [[p e] c0| |] eqn:E; try discriminate.
  apply rb_ReadBytes_consumed in E.
  destruct e; [inversion H; subst; exact E|].
  destruct (len p - 2 <=? 0); inversion H; subst; exact E.
Qed.

Lemma parseBulkString_consumed p c r c' :
  parseBulkString p c = Ok r c' -> consumed c c'.
Proof.
  unfold parseBulkString, bind, ret, panic. intros H.
  destruct (ParseInt p) as [n|err]; [|inversion H; subst; apply consumed_refl].
  destruct (n =? -1); [inversion H; subst; apply consumed_refl|].
  destruct (wrap64 (n + 2) <? 0); [discriminate|].
  destruct (rb_ReadFull _ c) as [[r0 e0] c0| |] eqn:E; try discriminate.
  apply rb_ReadFull_consumed in E.
  destruct ((n <? 0) || (wrap64 (n + 2) <? n)); [discriminate|].
  inversion H; subst. exact E.
Qed.

Lemma parseArray_loop_consumed rd
  (rd_consumed : forall c r c', rd c = Ok r c' -> consumed c c') :
  forall k n i res c r c',
    parseArray_loop rd k n i res c = Ok r c' -> consumed c c'.
Proof.
  induction k as [|k IH]; intros n i res c r c' H; simpl in H.
  - destruct (i <? n); [discriminate|]. inversion H; subst. apply consumed_refl.
  - destruct (i <? n); [|inversion H; subst; apply consumed_refl].
    unfold bind in H. destruct (rd c) as [[v e] c0| |] eqn:E; try discriminate.
    apply rd_consumed in E.
    destruct e; [inversion H; subst; exact E|].
    apply IH in H. eapply consumed_trans; eauto.
Qed.

Lemma readResponse_fuel_consumed fuel : forall c r c',
  readResponse_fuel fuel c = Ok r c' -> consumed c c'.
Proof.
  induction fuel as [|fuel IH]; intros c r c' H; simpl in H; [discriminate|].
  unfold bind in H.
  destruct (readLine c) as [[p e0] c0| |] eqn:E; try discriminate.
  apply readLine_consumed in E.
  destruct e0; [inversion H; subst; exact E|].
  destruct p as [|t p]; [discriminate|].
  destruct (byte_eqb t TypeError); [inversion H; subst; exact E|].
  destruct (byte_eqb t TypeIntegers).
  { unfold parseInt, ret in H. destruct (ParseInt p); inversion H; subst; exact E. }
  destruct (byte_eqb t TypeSimpleString); [inversion H; subst; exact E|].
  destruct (byte_eqb t TypeBulkString).
  { apply parseBulkString_consumed in H. eapply consumed_trans; eauto. }
  destruct (byte_eqb t TypeArrays); [|inversion H; subst; exact E].
  destruct (parseArray_with _ fuel p c0) as [[l e1] c1| |] eqn:E1; try discriminate.
  inversion H; subst. eapply consumed_trans; [exact E|].
  revert E1. unfold parseArray_with, ret, panic.
  destruct (ParseInt p) as [n|err].
  - destruct (n =? -1).
    + intros E1; inversion E1; subst. apply consumed_refl.
    + destruct (n <? 0); [discriminate|].
      apply parseArray_loop_consumed. exact IH.
  - intros E1; inversion E1; subst. apply consumed_refl.
Qed.

Lemma readResponse_fuel_reads fuel c r c' :
  readResponse_fuel fuel c = Ok r c' -> exists s, c' = set_incoming s c.
Proof. intros H. eapply consumed_reads, readResponse_fuel_consumed, H. Qed.

Lemma readLine_reads c r c' :
  readLine c = Ok r c' -> exists s, c' = set_incoming s c.
Proof. intros H. eapply consumed_reads, readLine_consumed, H. Qed.

Lemma readResponse_consumed c r c' : readResponse c = Ok r c' -> consumed c c'.
Proof. apply readResponse_fuel_consumed. Qed.

(** ** Which errors the decoder reports *)

Lemma HasPrefix_app p : forall x, HasPrefix (p ++ x) p = true.
Proof.
  induction p as [|b p IH]; intros x; simpl; [destruct x; reflexivity|].
  unfold byte_eqb. rewrite Ascii.eqb_refl. apply IH.
Qed.

Lemma Contains_prefix x : Contains (CommonErrPrefix ++ x) CommonErrPrefix = true.
Proof.
  change (CommonErrPrefix ++ x) with ("C"%char :: B "ommonError:" ++ x).
  unfold Contains; fold Contains.
  change ("C"%char :: B "ommonError:" ++ x) with (CommonErrPrefix ++ x).
  rewrite HasPrefix_app. reflexivity.
Qed.

Lemma rb_ReadFull_error n c r e c' :
  rb_ReadFull n c = Ok (r, Some e) c' -> stream_error c e.
Proof.
  unfold rb_ReadFull, stream_error. intros H.
  destruct n; [discriminate|].
  destruct (closed (conn c)); [inversion H; auto|].
  destruct (S n <=? length (incoming (conn c)))%nat; [discriminate|].
  inversion H; subst.
  destruct (rerr (conn c)) eqn:Er; simpl; auto.
  destruct (incoming (conn c)); auto.
Qed.

Lemma readLine_error c p e c' :
  readLine c = Ok (p, Some e) c' -> stream_error c e.
Proof.
  unfold readLine, bind, ret, rb_ReadBytes, stream_error. intros H.
  destruct (closed (conn c)); [inversion H; auto|].
  destruct (cut_line LF (incoming (conn c))) as [[l r]|].
  - destruct (len l - 2 <=? 0); inversion H; auto.
  - inversion H; auto.
Qed.

Lemma stream_error_reads c c1 e :
  (exists s, c1 = set_incoming s c) -> stream_error c1 e -> stream_error c e.
Proof. intros [s ->] H. exact H. Qed.

Lemma parseArray_loop_error rd
  (rd_reads : forall c r c', rd c = Ok r c' -> exists s, c' = set_incoming s c)
  (rd_error : forall c v e c', rd c = Ok (v, Some e) c' ->
     Contains (Error e) CommonErrPrefix = true \/ stream_error c e) :
  forall k n i res c l e c',
    parseArray_loop rd k n i res c = Ok (l, Some e) c' ->
    Contains (Error e) CommonErrPrefix = true \/ stream_error c e.
Proof.
  induction k as [|k IH]; intros n i res c l e c' H; simpl in H.
  - destruct (i <? n); discriminate.
  - destruct (i <? n); [|discriminate].
    unfold bind in H. destruct (rd c) as [[v e0] c0| |] eqn:E; try discriminate.
    destruct e0 as [e0|].
    + inversion H; subst. eapply rd_error; eauto.
    + apply IH in H. destruct H as [H|H]; [auto|].
      right. eapply stream_error_reads; eauto.
Qed.

Lemma readResponse_fuel_error fuel : forall c v e c',
  readResponse_fuel fuel c = Ok (v, Some e) c' ->
  Contains (Error e) CommonErrPrefix = true \/ stream_error c e.
Proof.
  induction fuel as [|fuel IH]; intros c v e c' H; simpl in H; [discriminate|].
  unfold bind in H.
  destruct (readLine c) as [[p e0] c0| |] eqn:E; try discriminate.
  destruct e0 as [e0|].
  { inversion H; subst. right. eapply readLine_error; eauto. }
  pose proof (readLine_reads _ _ _ E) as Hr.
  destruct p as [|t p]; [discriminate|].
  destruct (byte_eqb t TypeError).
  { inversion H; subst. left. apply Contains_prefix. }
  destruct (byte_eqb t TypeIntegers).
  { unfold parseInt, ret in H. destruct (ParseInt p); inversion H; subst.
    left. apply Contains_prefix. }
  destruct (byte_eqb t TypeSimpleString); [discriminate|].
  destruct (byte_eqb t TypeBulkString).
  { unfold parseBulkString, bind, ret, panic in H.
    destruct (ParseInt p) as [n|err].
    - destruct (n =? -1); [discriminate|].
      destruct (wrap64 (n + 2) <? 0); [discriminate|].
      destruct (rb_ReadFull _ c0) as [[r0 e1] c1| |] eqn:E1; try discriminate.
      destruct ((n <? 0) || (wrap64 (n + 2) <? n)); [discriminate|].
      inversion H; subst. right.
      eapply stream_error_reads; [exact Hr|]. eapply rb_ReadFull_error; eauto.
    - inversion H; subst. left. apply Contains_prefix. }
  destruct (byte_eqb t TypeArrays).
  2: { inversion H; subst. left. apply Contains_prefix. }
  destruct (parseArray_with _ fuel p c0) as [[l e1] c1| |] eqn:E1; try discriminate.
  inversion H; subst. revert E1. unfold parseArray_with, ret, panic.
  destruct (ParseInt p) as [n|err].
  - destruct (n =? -1); [discriminate|].
    destruct (n <? 0); [discriminate|].
    intros E1.
    apply (parseArray_loop_error _ (readResponse_fuel_reads fuel) IH) in E1.
    destruct E1 as [E1|E1]; [auto|].
    right. eapply stream_error_reads; eauto.
  - intros E1; inversion E1; subst. left. apply Contains_prefix.
Qed.

(** ** Lines *)

Lemma readLine_CRLF c p rest :
  closed (conn c) = false ->
  Forall (fun b => byte_eqb b LF = false) p ->
  readLine (set_incoming (p ++ CRLF ++ rest) c)
  = match p with
    | [] => Ok ([], Some ErrBadTerminator) (set_incoming rest c)
    | _ :: _ => Ok (p, None) (set_incoming rest c)
    end.
Proof.
  intros Hc Hp.
  replace (p ++ CRLF ++ rest) with ((p ++ [CR]) ++ LF :: rest)
    by (rewrite <- app_assoc; reflexivity).
  rewrite readLine_line; [|exact Hc|].
  2: { apply Forall_app. split; [exact Hp|]. constructor; [reflexivity|constructor]. }
  unfold len. rewrite length_app. simpl length.
  destruct p as [|b p].
  - reflexivity.
  - destruct (Z.leb_spec (Z.of_nat (length (b :: p) + 1)) 1) as [H|H];
      [simpl in H; lia|].
    replace (length (b :: p) + 1 - 1)%nat with (length (b :: p)) by lia.
    rewrite take_app_length. reflexivity.
Qed.

Lemma cut_line_none delim s :
  Forall (fun b => byte_eqb b delim = false) s -> cut_line delim s = None.
Proof.
  induction 1 as [|b s Hb _ IH]; simpl; [reflexivity|]. rewrite Hb, IH. reflexivity.
Qed.

Lemma byte_neqb (a b : ascii) : a <> b -> byte_eqb a b = false.
Proof. intros H. apply Ascii.eqb_neq, H. Qed.



(** X3: an integer reply whose line is the decimal text of a 64-bit
    integer [n] decodes to [n]. *)
Theorem X3_integer_reply_round_trip (c : Conn) (n : Z) (rest : bytes) :
  closed (conn c) = false ->
  min_int64 <= n <= max_int64 ->
  readResponse (set_incoming (TypeIntegers :: AppendInt n ++ CRLF ++ rest) c)
  = Ok (Int64 n, None) (set_incoming rest c).
Proof.
  intros Hc Hn.
  pose proof (ParseInt_AppendInt n Hn) as Hp.
  rewrite readResponse_eq. unfold bind.
  erewrite (readLine_header _ TypeIntegers (AppendInt n) rest);
    [|exact Hc|reflexivity|exact Hp|reflexivity].
  cbv beta iota.
  change (byte_eqb TypeIntegers TypeError) with false.
  change (byte_eqb TypeIntegers TypeIntegers) with true.
  cbv beta iota. unfold parseInt. rewrite Hp. reflexivity.
Qed.

(** X4: for a line [p] without line feed: the reply [+p] decodes to the
    byte string [p] as it is; the reply [-p] gives a nil reply and an error
    whose text is [CommonError:] followed by [p]; and a line that starts with
    a byte [t] other than the five type bytes gives a nil reply and the error
    [CommonError:Err type]. *)
Theorem X4_line_replies (c : Conn) (t : ascii) (p rest : bytes) :
  closed (conn c) = false ->
  Forall (fun b => byte_eqb b LF = false) (t :: p) ->
  byte_eqb t TypeIntegers = false ->
  byte_eqb t TypeBulkString = false ->
  byte_eqb t TypeArrays = false ->
  readResponse (set_incoming (t :: p ++ CRLF ++ rest) c)
  = Ok (if byte_eqb t TypeSimpleString then (Bytes p, None)
        else if byte_eqb t TypeError
             then (Nil, Some (errors_New (CommonErrPrefix ++ p)))
             else (Nil, Some (errors_New (CommonErrPrefix ++ B "Err type"))))
       (set_incoming rest c).
Proof.
  intros Hc Hp E1 E2 E3.
  rewrite readResponse_eq. unfold bind.
  change (t :: p ++ CRLF ++ rest) with ((t :: p) ++ CRLF ++ rest).
  rewrite readLine_CRLF by assumption.
  change (set_incoming rest (set_incoming _ c)) with (set_incoming rest c).
  cbv beta iota. rewrite E1, E2, E3.
  destruct (byte_eqb t TypeError) eqn:E4.
  - apply Ascii.eqb_eq in E4. subst. reflexivity.
  - destruct (byte_eqb t TypeSimpleString); reflexivity.
Qed.

(** X5: [readLine] on a line closed by CR LF returns the line without the
    two bytes, or the error [ErrBadTerminator] if the line is empty; on an
    input with no line feed left it uses up the input and returns the error
    of the socket. *)
Theorem X5_readLine_outcomes (c : Conn) (p rest : bytes) :
  closed (conn c) = false ->
  Forall (fun b => byte_eqb b LF = false) p ->
  readLine (set_incoming (p ++ CRLF ++ rest) c)
  = (match p with
     | [] => Ok ([], Some ErrBadTerminator) (set_incoming rest c)
     | _ :: _ => Ok (p, None) (set_incoming rest c)
     end) /\
  readLine (set_incoming p c) = Ok ([], Some (rerr (conn c))) (set_incoming [] c).
Proof.
  intros Hc Hp. split; [apply readLine_CRLF; assumption|].
  unfold readLine, bind, rb_ReadBytes. simpl. rewrite Hc.
  rewrite cut_line_none by exact Hp. reflexivity.
Qed.

(** X6: whatever [readResponse] returns, it has only read: the connection
    afterwards is the one before with some bytes taken off the front of its
    input, and a reply decoded without error has taken at least one. *)
Theorem X6_readResponse_consumes (c c' : Conn) (v : value) (e : option error) :
  readResponse c = Ok (v, e) c' ->
  consumed c c' /\ (e = None -> (unread c' < unread c)%nat).
Proof.
  intros H. split; [eapply readResponse_consumed; eauto|].
  apply (readResponse_unread _ _ _ _ H).
Qed.

(** X7: an error that [readResponse] returns either carries the prefix
    [CommonError:] in its text (an Error reply, a number that does not
    parse, an unknown type byte) or is an error of the stream: the bad
    terminator, a closed socket, the error at the end of the input, a bulk
    string cut short. *)
Theorem X7_decode_error_kinds (c c' : Conn) (v : value) (e : error) :
  readResponse c = Ok (v, Some e) c' ->
  Contains (Error e) CommonErrPrefix = true \/ stream_error c e.
Proof. apply readResponse_fuel_error. Qed.

(** ** Witnesses of the decoder properties *)



Lemma X3_integer_reply_round_trip_witness :
  readResponse (set_incoming (B ":-1000" ++ CRLF ++ B "+x" ++ CRLF) (fresh_conn []))
  = Ok (Int64 (-1000), None) (set_incoming (B "+x" ++ CRLF) (fresh_conn [])).
Proof.
  apply (X3_integer_reply_round_trip (fresh_conn []) (-1000) (B "+x" ++ CRLF));
    [reflexivity|].
  unfold min_int64, max_int64. lia.
Defined.

Lemma X4_line_replies_witness :
  readResponse (set_incoming (B "+a" ++ [CR] ++ B "b" ++ CRLF ++ B ":1" ++ CRLF) (fresh_conn []))
    = Ok (Bytes (B "a" ++ [CR] ++ B "b"), None)
         (set_incoming (B ":1" ++ CRLF) (fresh_conn [])) /\
  readResponse (set_incoming (B "-ERR no" ++ CRLF ++ B ":1" ++ CRLF) (fresh_conn []))
    = Ok (Nil, Some (errors_New (B "CommonError:ERR no")))
         (set_incoming (B ":1" ++ CRLF) (fresh_conn [])) /\
  readResponse (set_incoming (B "?what" ++ CRLF ++ B ":1" ++ CRLF) (fresh_conn []))
    = Ok (Nil, Some (errors_New (B "CommonError:Err type")))
         (set_incoming (B ":1" ++ CRLF) (fresh_conn [])).
Proof.
  split; [|split].
  - apply (X4_line_replies (fresh_conn []) "+"%char (B "a" ++ [CR] ++ B "b")
             (B ":1" ++ CRLF)); try reflexivity.
    repeat constructor.
  - apply (X4_line_replies (fresh_conn []) "-"%char (B "ERR no") (B ":1" ++ CRLF));
      try reflexivity.
    repeat constructor.
  - apply (X4_line_replies (fresh_conn []) "?"%char (B "what") (B ":1" ++ CRLF));
      try reflexivity.
    repeat constructor.
Defined.

Lemma X5_readLine_outcomes_witness :
  (readLine (set_incoming (B "+OK" ++ CRLF ++ B ":1") (fresh_conn []))
     = Ok (B "+OK", None) (set_incoming (B ":1") (fresh_conn [])) /\
   readLine (set_incoming (B "+OK") (fresh_conn []))
     = Ok ([], Some io_EOF) (set_incoming [] (fresh_conn []))) /\
  readLine (set_incoming (CRLF ++ B ":1") (fresh_conn []))
    = Ok ([], Some ErrBadTerminator) (set_incoming (B ":1") (fresh_conn [])).
Proof.
  split.
  - apply (X5_readLine_outcomes (fresh_conn []) (B "+OK") (B ":1")); [reflexivity|].
    repeat constructor.
  - apply (X5_readLine_outcomes (fresh_conn []) [] (B ":1")); [reflexivity|].
    constructor.
Defined.

Lemma X6_readResponse_consumes_witness :
  consumed (fresh_conn (B "+OK" ++ CRLF ++ B ":1" ++ CRLF))
           (set_incoming (B ":1" ++ CRLF) (fresh_conn (B "+OK" ++ CRLF ++ B ":1" ++ CRLF))) /\
  (unread (set_incoming (B ":1" ++ CRLF) (fresh_conn (B "+OK" ++ CRLF ++ B ":1" ++ CRLF)))
   < unread (fresh_conn (B "+OK" ++ CRLF ++ B ":1" ++ CRLF)))%nat.
Proof.
  destruct (X6_readResponse_consumes
              (fresh_conn (B "+OK" ++ CRLF ++ B ":1" ++ CRLF))
              (set_incoming (B ":1" ++ CRLF) (fresh_conn (B "+OK" ++ CRLF ++ B ":1" ++ CRLF)))
              (Bytes (B "OK")) None eq_refl) as [H1 H2].
  exact (conj H1 (H2 eq_refl)).
Defined.

Lemma X7_decode_error_kinds_witness :
  Contains (Error (errors_New (B "CommonError:ERR no"))) CommonErrPrefix = true \/
  stream_error (fresh_conn (B "-ERR no" ++ CRLF)) (errors_New (B "CommonError:ERR no")).
Proof.
  exact (X7_decode_error_kinds (fresh_conn (B "-ERR no" ++ CRLF))
           (set_incoming [] (fresh_conn (B "-ERR no" ++ CRLF)))
           Nil (errors_New (B "CommonError:ERR no")) eq_refl).
Defined.

(** ** The encoder only buffers *)

Lemma set_buffer_wb_same c : set_wb (wb c) (set_buffer (buffer c) c) = c.
Proof. destruct c as [? ? ? ? ? [? ?] ? ? ?]. reflexivity. Qed.

Lemma buffered_refl c : buffered c c.
Proof.
  exists (buffer c), (wb c), []. split; [symmetry; apply set_buffer_wb_same|].
  rewrite app_nil_r. reflexivity.
Qed.

Lemma buffered_trans c c1 c2 : buffered c c1 -> buffered c1 c2 -> buffered c c2.
Proof.
  intros (b1 & w1 & p1 & -> & H1) (b2 & w2 & p2 & -> & H2). simpl in H2.
  exists b2, w2, (p1 ++ p2). split; [reflexivity|].
  rewrite H2, H1, app_assoc. reflexivity.
Qed.

Lemma buffer_store_buffered pos b c r c' :
  buffer_store pos b c = Ok r c' -> buffered c c'.
Proof.
  unfold buffer_store. intros H.
  destruct ((0 <=? pos) && (pos <? len (buffer c))); [|discriminate].
  inversion H; subst.
  exists (<[Z.to_nat pos := b]> (buffer c)), (wb c), []. split.
  - destruct c as [? ? ? ? ? [? ?] ? ? ?]. reflexivity.
  - rewrite app_nil_r. reflexivity.
Qed.

Lemma wb_Write_buffered p c r c' : wb_Write p c = Ok r c' -> buffered c c'.
Proof.
  unfold wb_Write. intros H.
  destruct (werr (wb c)); inversion H; subst; [apply buffered_refl|].
  exists (buffer c), (mkWriter (wbuf (wb c) ++ p) None), p. split; [|reflexivity].
  destruct c as [? ? ? ? ? [? ?] ? ? ?]. reflexivity.
Qed.

Lemma bind_buffered {A C} (m : M Conn A) (k : A -> M Conn C) c r c' :
  (forall a c1, m c = Ok a c1 -> buffered c c1) ->
  (forall a c1 r c2, k a c1 = Ok r c2 -> buffered c1 c2) ->
  bind m k c = Ok r c' -> buffered c c'.
Proof.
  intros Hm Hk. unfold bind. destruct (m c) as [a c1| |] eqn:E; try discriminate.
  intros H. eapply buffered_trans; eauto.
Qed.

Lemma ret_buffered {A} (a : A) c r c' : ret a c = Ok r c' -> buffered c c'.
Proof. intros H. inversion H; subst. apply buffered_refl. Qed.

Lemma writeLen_loop_buffered k : forall i pos c r c',
  writeLen_loop k i pos c = Ok r c' -> buffered c c'.
Proof.
  induction k as [|k IH]; intros i pos c r c' H; simpl in H.
  - eapply ret_buffered; eauto.
  - destruct (negb (i =? 0) && (pos >=? 0)); [|eapply ret_buffered; eauto].
    eapply bind_buffered in H; [exact H| |]; clear H.
    + intros ? ? H. eapply buffer_store_buffered; eauto.
    + intros ? ? ? ? H. eapply IH; eauto.
Qed.

Lemma get_buffered (c a c' : Conn) : get c = Ok a c' -> buffered c c'.
Proof. intros H. inversion H; subst. apply buffered_refl. Qed.

Ltac buffered_leaf H :=
  first [ eapply ret_buffered; exact H
        | eapply get_buffered; exact H
        | eapply buffer_store_buffered; exact H
        | eapply writeLen_loop_buffered; exact H
        | eapply wb_Write_buffered; exact H ].

Ltac buffered_run H :=
  cbv beta zeta in H;
  lazymatch type of H with
  | bind _ _ _ = Ok _ _ =>
      eapply bind_buffered in H;
      [ exact H
      | clear H; intros ? ? H; buffered_leaf H
      | clear H; intros ? ? ? ? H; buffered_run H ]
  | (match ?e with _ => _ end) _ = Ok _ _ => destruct e; buffered_run H
  | _ => buffered_leaf H
  end.

Lemma writeLen_buffered prefix n c r c' :
  writeLen prefix n c = Ok r c' -> buffered c c'.
Proof. unfold writeLen. intros H. buffered_run H. Qed.

Ltac buffered_leaf2 H :=
  first [ eapply ret_buffered; exact H
        | eapply writeLen_buffered; exact H
        | eapply wb_Write_buffered; exact H ].

Ltac buffered_run2 H :=
  cbv beta zeta in H;
  lazymatch type of H with
  | bind _ _ _ = Ok _ _ =>
      eapply bind_buffered in H;
      [ exact H
      | clear H; intros ? ? H; buffered_leaf2 H
      | clear H; intros ? ? ? ? H; buffered_run2 H ]
  | (match ?e with _ => _ end) _ = Ok _ _ => destruct e; buffered_run2 H
  | _ => buffered_leaf2 H
  end.

Lemma writeString_buffered s c r c' :
  writeString s c = Ok r c' -> buffered c c'.
Proof. unfold writeString. intros H. buffered_run2 H. Qed.

Lemma writeArg_buffered a c r c' : writeArg a c = Ok r c' -> buffered c c'.
Proof.
  destruct a as [n|n|t|s|b|[]| |t]; simpl; unfold writeInt64, writeFloat64;
    apply writeString_buffered.
Qed.

Lemma writeRequest_loop_buffered args : forall e c r c',
  writeRequest_loop args e c = Ok r c' -> buffered c c'.
Proof.
  induction args as [|a args IH]; intros e c r c' H; simpl in H.
  - eapply ret_buffered; eauto.
  - destruct e; [eapply ret_buffered; eauto|].
    eapply bind_buffered in H; [exact H| |]; clear H.
    + intros ? ? H. eapply writeArg_buffered; eauto.
    + intros ? ? ? ? H. eapply IH; eauto.
Qed.

Lemma writeRequest_buffered command args c r c' :
  writeRequest command args c = Ok r c' -> buffered c c'.
Proof.
  unfold writeRequest. intros H.
  eapply bind_buffered in H; [exact H| |]; clear H.
  - intros ? ? H. eapply writeLen_buffered; eauto.
  - intros [e|] c1 r1 c2 H; [eapply ret_buffered; eauto|].
    eapply bind_buffered in H; [exact H| |]; clear H.
    + intros ? ? H. eapply writeString_buffered; eauto.
    + intros [e|] c3 r3 c4 H; [eapply ret_buffered; eauto|].
      eapply writeRequest_loop_buffered; eauto.
Qed.

(** ** The decoder looks only at the reading side *)

Lemma rb_ReadBytes_reader delim o c :
  rb_ReadBytes delim (reader_of o c) = on_final (reader_of o) (rb_ReadBytes delim c).
Proof.
  unfold rb_ReadBytes. simpl.
  destruct (closed (conn c)); [reflexivity|].
  destruct (cut_line delim (incoming (conn c))) as [[l r]|]; reflexivity.
Qed.

Lemma rb_ReadFull_reader n o c :
  rb_ReadFull n (reader_of o c) = on_final (reader_of o) (rb_ReadFull n c).
Proof.
  unfold rb_ReadFull. simpl. destruct n; [reflexivity|].
  destruct (closed (conn c)); [reflexivity|].
  destruct (S n <=? length (incoming (conn c)))%nat; reflexivity.
Qed.

Lemma readLine_reader o c :
  readLine (reader_of o c) = on_final (reader_of o) (readLine c).
Proof.
  unfold readLine, bind. rewrite rb_ReadBytes_reader.
  destruct (rb_ReadBytes LF c) as [[p e] c0| |]; simpl; try reflexivity.
  destruct e; [reflexivity|]. destruct (len p - 2 <=? 0); reflexivity.
Qed.

Lemma parseBulkString_reader p o c :
  parseBulkString p (reader_of o c) = on_final (reader_of o) (parseBulkString p c).
Proof.
  unfold parseBulkString, bind, ret, panic.
  destruct (ParseInt p) as [n|err]; [|reflexivity].
  destruct (n =? -1); [reflexivity|].
  destruct (wrap64 (n + 2) <? 0); [reflexivity|].
  rewrite rb_ReadFull_reader.
  destruct (rb_ReadFull _ c) as [[r0 e0] c0| |]; simpl; try reflexivity.
  destruct ((n <? 0) || (wrap64 (n + 2) <? n)); reflexivity.
Qed.

Lemma parseArray_loop_reader rd o
  (rd_reader : forall c, rd (reader_of o c) = on_final (reader_of o) (rd c)) :
  forall k n i res c,
    parseArray_loop rd k n i res (reader_of o c)
    = on_final (reader_of o) (parseArray_loop rd k n i res c).
Proof.
  induction k as [|k IH]; intros n i res c; simpl.
  - destruct (i <? n); reflexivity.
  - destruct (i <? n); [|reflexivity].
    unfold bind. rewrite rd_reader.
    destruct (rd c) as [[v e] c0| |]; simpl; try reflexivity.
    destruct e; [reflexivity|]. apply IH.
Qed.

Lemma readResponse_fuel_reader fuel o : forall c,
  readResponse_fuel fuel (reader_of o c)
  = on_final (reader_of o) (readResponse_fuel fuel c).
Proof.
  induction fuel as [|fuel IH]; intros c; simpl; [reflexivity|].
  unfold bind. rewrite readLine_reader.
  destruct (readLine c) as [[p e0] c0| |]; simpl; try reflexivity.
  destruct e0; [reflexivity|].
  destruct p as [|t p]; [reflexivity|].
  destruct (byte_eqb t TypeError); [reflexivity|].
  destruct (byte_eqb t TypeIntegers).
  { unfold parseInt, ret. destruct (ParseInt p); reflexivity. }
  destruct (byte_eqb t TypeSimpleString); [reflexivity|].
  destruct (byte_eqb t TypeBulkString); [apply parseBulkString_reader|].
  destruct (byte_eqb t TypeArrays); [|reflexivity].
  unfold parseArray_with, ret, panic.
  destruct (ParseInt p) as [n|err]; [|reflexivity].
  destruct (n =? -1); [reflexivity|].
  destruct (n <? 0); [reflexivity|].
  rewrite (parseArray_loop_reader _ o IH).
  destruct (parseArray_loop _ fuel n 0 _ c0) as [[l e1] c1| |]; reflexivity.
Qed.

(** Decoding on a connection gives what decoding on any other connection
    with the same closed flag, unread input and end-of-input error gives. *)
Lemma readResponse_reader o c :
  readResponse (reader_of o c) = on_final (reader_of o) (readResponse c).
Proof. apply readResponse_fuel_reader. Qed.

Lemma decode_n_reader o n : forall c,
  decode_n n (reader_of o c)
  = match decode_n n c with
    | Some (vs, c') => Some (vs, reader_of o c')
    | None => None
    end.
Proof.
  induction n as [|n IH]; intros c; simpl; [reflexivity|].
  rewrite readResponse_reader.
  destruct (readResponse c) as [[v [e|]] c1| |]; simpl; try reflexivity.
  rewrite IH. destruct (decode_n n c1) as [[vs c2]|]; reflexivity.
Qed.

(** ** Operations on the connection in the heap *)

Lemma on_conn_run {A} a (m : M Conn A) w x r x' :
  conns w !! a = Some x -> m x = Ok r x' ->
  on_conn a m w = Ok r (mkWorld (now w) (<[a := x']> (conns w)) (thePool w)).
Proof. intros Hx Hm. unfold on_conn. rewrite Hx, Hm. reflexivity. Qed.

Lemma on_conn_inv {A} a (m : M Conn A) w r w' :
  on_conn a m w = Ok r w' ->
  exists x x', conns w !! a = Some x /\ m x = Ok r x' /\
    w' = mkWorld (now w) (<[a := x']> (conns w)) (thePool w).
Proof.
  unfold on_conn. intros H.
  destruct (conns w !! a) as [x|]; [|discriminate].
  destruct (m x) as [r0 x'| |] eqn:E; inversion H; subst. eauto.
Qed.

Lemma wb_Flush_open c :
  werr (wb c) = None -> closed (conn c) = false ->
  wb_Flush c
  = Ok None (set_wb (mkWriter [] None)
               (set_conn (mkTCPConn false (incoming (conn c)) (rerr (conn c))
                            (sent (conn c) ++ wbuf (wb c))) c)).
Proof.
  intros Hw Hc. unfold wb_Flush. rewrite Hw.
  destruct (wbuf (wb c)) eqn:Eb.
  - rewrite app_nil_r.
    destruct c as [? ? ? ? [? ? ? ?] [? ?] ? ? ?]. simpl in *. subst. reflexivity.
  - rewrite Hc. reflexivity.
Qed.

Lemma on_conn_at {A} a (m : M Conn A) n cs p x r x' :
  m x = Ok r x' ->
  on_conn a m (mkWorld n (<[a := x]> cs) p) = Ok r (mkWorld n (<[a := x']> cs) p).
Proof.
  intros Hm. unfold on_conn. simpl.
  rewrite lookup_insert_eq, Hm, insert_insert_eq. reflexivity.
Qed.

Lemma SetDeadline_open c : closed (conn c) = false -> SetDeadline c = Ok None c.
Proof. intros H. unfold SetDeadline. rewrite H. reflexivity. Qed.

(** ** What [writeRequest] writes *)

(** X9: on a connection with its 64-byte scratch buffer and a writer that
    has not failed, a request that fits in the writer beside what it holds
    is appended by [writeRequest] to the bytes to send, with no error: [*],
    the decimal digits of [1 + len(args)], CR LF, the frame of the verb and
    the frame of each argument in order, a frame being [$], the digits of
    the length (none when it is zero), CR LF, the bytes, CR LF.  Nothing is
    sent, the writer stays sound and the buffer keeps its size. *)
Theorem X9_request_layout (c : Conn) (command : bytes) (args : list arg) :
  len (buffer c) = DefaultBufferSize -> werr (wb c) = None ->
  len (wbuf (wb c)) + len (request command args) <= bufio_size ->
  len command <= max_int64 -> 1 + len args <= max_int64 ->
  Forall (fun a => len (arg_text a) <= max_int64) args ->
  exists c',
    writeRequest command args c = Ok None c' /\
    wbuf (wb c')
    = wbuf (wb c) ++
      "*"%char :: lenDigits (1 + len args) ++ CRLF ++
      frame command ++ concat (map (fun a => frame (arg_text a)) args) /\
    werr (wb c') = None /\ len (buffer c') = DefaultBufferSize /\
    conn c' = conn c /\ pipeCount c' = pipeCount c.
Proof.
  intros Hb Hw _ Hc Hn Hargs.
  destruct (writeRequest_spec command args c Hb Hw Hc Hn Hargs) as (buf' & Hrun & Hl).
  exists (wrote buf' (request command args) c).
  split; [exact Hrun|]. repeat split. exact Hl.
Qed.

(** ** What [Call] does *)

Lemma Call_run (a : nat) (w : World) (x x' : Conn)
    (command : bytes) (args : list arg) (v : value) (e : option error) :
  conns w !! a = Some x ->
  len (buffer x) = DefaultBufferSize -> werr (wb x) = None ->
  closed (conn x) = false ->
  len command <= max_int64 -> 1 + len args <= max_int64 ->
  Forall (fun a => len (arg_text a) <= max_int64) args ->
  readResponse x = Ok (v, e) x' ->
  exists buf',
    Call a command args w
    = Ok (match e with Some _ => Nil | None => v end, e)
         (mkWorld (now w)
            (<[a := after_Call (now w / 1000000000) buf' (request command args) x x']>
               (conns w))
            (counted x (thePool w))).
Proof.
  intros Hx Hb Hw Hc Hcmd Hn Hargs Hread.
  set (t := now w / 1000000000).
  set (xt := set_lastActiveTime t x).
  destruct (writeRequest_spec command args xt Hb Hw Hcmd Hn Hargs)
    as (buf' & Hrun & Hl).
  exists buf'.
  set (xw := wrote buf' (request command args) xt) in *.
  pose proof (wb_Flush_open xw eq_refl Hc) as Hflush.
  set (xf := set_wb (mkWriter [] None)
               (set_conn (mkTCPConn false (incoming (conn xw)) (rerr (conn xw))
                            (sent (conn xw) ++ wbuf (wb xw))) xw)) in *.
  assert (Hxf : xf = reader_of xf x).
  { unfold reader_of, xf. simpl. rewrite Hc. reflexivity. }
  assert (Hdec : readResponse xf = Ok (v, e) (reader_of xf x')).
  { rewrite Hxf at 1. rewrite readResponse_reader, Hread. reflexivity. }
  destruct (consumed_reads _ _ (readResponse_consumed _ _ _ Hread)) as [s Hs].
  assert (Hfin : reader_of xf x' = after_Call t buf' (request command args) x x').
  { subst x'. unfold reader_of, after_Call, xf. simpl. reflexivity. }
  unfold Call, bind, time_Now_Unix. fold t.
  rewrite (on_conn_run a (fun x => Ok tt (set_lastActiveTime t x)) w x tt xt Hx eq_refl).
  unfold load. simpl conns. rewrite lookup_insert_eq.
  assert (Hcount :
    (match pool xt with Some ThePool => Pool_count | None => ret tt end)
      (mkWorld (now w) (<[a := xt]> (conns w)) (thePool w))
    = Ok tt (mkWorld (now w) (<[a := xt]> (conns w)) (counted x (thePool w)))).
  { unfold counted. change (pool xt) with (pool x).
    destruct (pool x) as [[]|]; reflexivity. }
  rewrite Hcount. clear Hcount.
  assert (Hdl1 :
    (if writeTimeout xt >? 0 then on_conn a SetDeadline else ret None)
      (mkWorld (now w) (<[a := xt]> (conns w)) (counted x (thePool w)))
    = Ok None (mkWorld (now w) (<[a := xt]> (conns w)) (counted x (thePool w)))).
  { destruct (writeTimeout xt >? 0); [|reflexivity].
    apply on_conn_at. apply SetDeadline_open. exact Hc. }
  rewrite Hdl1. clear Hdl1.
  rewrite (on_conn_at a _ _ _ _ xt None xw Hrun).
  rewrite (on_conn_at a _ _ _ _ xw None xf Hflush).
  assert (Hdl2 :
    (if readTimeout xt >? 0 then on_conn a SetDeadline else ret None)
      (mkWorld (now w) (<[a := xf]> (conns w)) (counted x (thePool w)))
    = Ok None (mkWorld (now w) (<[a := xf]> (conns w)) (counted x (thePool w)))).
  { destruct (readTimeout xt >? 0); [|reflexivity].
    apply on_conn_at. apply SetDeadline_open. reflexivity. }
  rewrite Hdl2. clear Hdl2.
  rewrite (on_conn_at a _ _ _ _ xf (v, e) _ Hdec).
  rewrite Hfin. destruct e; reflexivity.
Qed.

(** X10: on an open connection with its 64-byte scratch buffer and a
    writer that has not failed, and on which no deadline passes during the
    call, [Call] returns what the decoder gives for the unread input,
    with the reply replaced by nil when there is an error.  Afterwards the
    socket has been sent, after the bytes that were still buffered, exactly
    the bytes of the request; nothing is left buffered; the time stamp is
    the clock in seconds; the input is read up to the end of the reply; and
    the call counter of the pool is one higher if the connection has a
    pool. *)
Theorem X10_Call_sends_and_decodes (a : nat) (w : World) (x x' : Conn)
    (command : bytes) (args : list arg) (v : value) (e : option error) :
  conns w !! a = Some x ->
  len (buffer x) = DefaultBufferSize -> werr (wb x) = None ->
  closed (conn x) = false -> deadline_ahead x ->
  len command <= max_int64 -> 1 + len args <= max_int64 ->
  Forall (fun a => len (arg_text a) <= max_int64) args ->
  readResponse_lim x = Ok (v, e) x' ->
  exists buf',
    Call a command args w
    = Ok (match e with Some _ => Nil | None => v end, e)
         (mkWorld (now w)
            (<[a := after_Call (now w / 1000000000) buf' (request command args) x x']>
               (conns w))
            (counted x (thePool w))).
Proof.
  intros Hx Hb Hw Hc _ Hcmd Hn Hargs Hr.
  apply readResponse_lim_Ok in Hr.
  exact (Call_run a w x x' command args v e Hx Hb Hw Hc Hcmd Hn Hargs Hr).
Qed.

(** ** What [Call] keeps *)

Lemma advanced_refl x : advanced x x.
Proof.
  unfold advanced. repeat split; try reflexivity.
  - exists []. rewrite app_nil_r. reflexivity.
  - exists []. reflexivity.
Qed.

Lemma advanced_trans x x1 x2 : advanced x x1 -> advanced x1 x2 -> advanced x x2.
Proof.
  unfold advanced.
  intros (A1 & A2 & A3 & A4 & A5 & A6 & A7 & A8 & [u1 A9] & [v1 A10])
         (B1 & B2 & B3 & B4 & B5 & B6 & B7 & B8 & [u2 B9] & [v2 B10]).
  repeat split; try congruence.
  - exists (u1 ++ u2). rewrite B9, A9, app_assoc. reflexivity.
  - exists (v1 ++ v2). rewrite A10, B10, app_assoc. reflexivity.
Qed.

Lemma buffered_advanced c c' : buffered c c' -> advanced c c'.
Proof.
  intros (buf & w & p & -> & _). unfold advanced. simpl.
  repeat split; try reflexivity.
  - exists []. rewrite app_nil_r. reflexivity.
  - exists []. reflexivity.
Qed.

Lemma consumed_advanced c c' : consumed c c' -> advanced c c'.
Proof.
  intros (u & r & Hu & ->). unfold advanced. simpl.
  repeat split; try reflexivity.
  - exists []. rewrite app_nil_r. reflexivity.
  - exists u. exact Hu.
Qed.

Lemma wb_Flush_advanced c r c' : wb_Flush c = Ok r c' -> advanced c c'.
Proof.
  unfold wb_Flush. intros H.
  destruct (werr (wb c)); [inversion H; subst; apply advanced_refl|].
  destruct (wbuf (wb c)); [inversion H; subst; apply advanced_refl|].
  destruct (closed (conn c)) eqn:Ec; inversion H; subst; unfold advanced; simpl;
    repeat split; try reflexivity; try (symmetry; exact Ec);
    try (exists []; rewrite ?app_nil_r; reflexivity); eauto.
Qed.

Lemma SetDeadline_same c r c' : SetDeadline c = Ok r c' -> c' = c.
Proof. unfold SetDeadline. destruct (closed (conn c)); intros H; inversion H; reflexivity. Qed.

Lemma on_conn_at_inv {A} a (m : M Conn A) n cs p x r w' :
  on_conn a m (mkWorld n (<[a := x]> cs) p) = Ok r w' ->
  exists x', m x = Ok r x' /\ w' = mkWorld n (<[a := x']> cs) p.
Proof.
  intros H. apply on_conn_inv in H as (x0 & x' & Hx & Hm & ->).
  simpl in Hx. rewrite lookup_insert_eq in Hx. inversion Hx; subst x0.
  exists x'. split; [exact Hm|]. simpl. rewrite insert_insert_eq. reflexivity.
Qed.

Lemma deadline_at a (b : bool) n cs p x r w' :
  (if b then on_conn a SetDeadline else ret None) (mkWorld n (<[a := x]> cs) p)
  = Ok r w' ->
  w' = mkWorld n (<[a := x]> cs) p /\ (closed (conn x) = true -> b = true -> r <> None).
Proof.
  destruct b.
  - intros H. apply on_conn_at_inv in H as (x' & Hm & ->).
    pose proof (SetDeadline_same _ _ _ Hm) as ->. split; [reflexivity|].
    intros Hc _. unfold SetDeadline in Hm. rewrite Hc in Hm. inversion Hm. discriminate.
  - intros H. inversion H; subst. split; [reflexivity|]. discriminate.
Qed.

(** Where a [Call] that returns leaves the world: only the connection
    called and the counter of the pool can differ. *)
Lemma Call_world a command args w r w' :
  Call a command args w = Ok r w' ->
  exists x x',
    conns w !! a = Some x /\
    w' = mkWorld (now w) (<[a := x']> (conns w)) (counted x (thePool w)) /\
    advanced (set_lastActiveTime (now w / 1000000000) x) x'.
Proof.
  unfold Call, bind, time_Now_Unix. intros H.
  destruct (on_conn a _ w) as [u w1| |] eqn:E1; try discriminate.
  apply on_conn_inv in E1 as (x & x1 & Hx & Hm & ->). inversion Hm; subst x1. clear Hm.
  exists x. set (xt := set_lastActiveTime (now w / 1000000000) x) in *.
  unfold load in H. simpl conns in H. rewrite lookup_insert_eq in H.
  assert (Hcount :
    (match pool xt with Some ThePool => Pool_count | None => ret tt end)
      (mkWorld (now w) (<[a := xt]> (conns w)) (thePool w))
    = Ok tt (mkWorld (now w) (<[a := xt]> (conns w)) (counted x (thePool w)))).
  { unfold counted. change (pool xt) with (pool x).
    destruct (pool x) as [[]|]; reflexivity. }
  rewrite Hcount in H. clear Hcount.
  match type of H with (match ?m with _ => _ end) = _ =>
    destruct m as [e1 w1| |] eqn:E2 end; try discriminate.
  apply deadline_at in E2 as [-> _].
  destruct e1.
  { inversion H; subst. exists xt. split; [exact Hx|]. split; [reflexivity|].
    apply advanced_refl. }
  destruct (on_conn a (writeRequest command args) _) as [e2 w2| |] eqn:E3;
    try discriminate.
  apply on_conn_at_inv in E3 as (xw & Hw & ->).
  pose proof (buffered_advanced _ _ (writeRequest_buffered _ _ _ _ _ Hw)) as Aw.
  destruct e2.
  { inversion H; subst. exists xw. auto. }
  destruct (on_conn a wb_Flush _) as [e3 w3| |] eqn:E4; try discriminate.
  apply on_conn_at_inv in E4 as (xf & Hf & ->).
  pose proof (advanced_trans _ _ _ Aw (wb_Flush_advanced _ _ _ Hf)) as Af.
  destruct e3.
  { inversion H; subst. exists xf. auto. }
  match type of H with (match ?m with _ => _ end) = _ =>
    destruct m as [e4 w4| |] eqn:E5 end; try discriminate.
  apply deadline_at in E5 as [-> _].
  destruct e4.
  { inversion H; subst. exists xf. auto. }
  destruct (on_conn a readResponse _) as [[v e5] w5| |] eqn:E6; try discriminate.
  apply on_conn_at_inv in E6 as (xr & Hr & ->).
  pose proof (advanced_trans _ _ _ Af
                (consumed_advanced _ _ (readResponse_consumed _ _ _ Hr))) as Ar.
  destruct e5; inversion H; subst; exists xr; auto.
Qed.

(** X11: a [Call] that returns has changed nothing in the world but the
    connection called and, if that connection has a pool, the call counter:
    the clock, the connections the pool holds and every other connection are
    as before.  Of the connection called it has kept the settings, the
    pending count and whether it is closed; it has set the time stamp to the
    clock in seconds; the bytes sent have only grown and the unread input
    has only shrunk. *)
Theorem X11_Call_keeps (a : nat) (command : bytes) (args : list arg)
    (w w' : World) (r : value * option error) :
  Call a command args w = Ok r w' ->
  exists x x',
    conns w !! a = Some x /\ conns w' !! a = Some x' /\
    advanced (set_lastActiveTime (now w / 1000000000) x) x' /\
    now w' = now w /\ thePool w' = counted x (thePool w) /\
    forall b, b <> a -> conns w' !! b = conns w !! b.
Proof.
  intros H. apply Call_world in H as (x & x' & Hx & -> & Ha).
  exists x, x'. simpl.
  split; [exact Hx|]. split; [apply lookup_insert_eq|]. split; [exact Ha|].
  split; [reflexivity|]. split; [reflexivity|].
  intros b Hb. apply lookup_insert_ne. congruence.
Qed.

Lemma readResponse_closed c :
  closed (conn c) = true -> readResponse c = Ok (Nil, Some net_ErrClosed) c.
Proof.
  intros Hc. rewrite readResponse_eq. unfold bind, readLine, bind, rb_ReadBytes.
  rewrite Hc. reflexivity.
Qed.

Lemma Call_closed (a : nat) (command : bytes) (args : list arg)
    (w w' : World) (x : Conn) (v : value) (e : option error) :
  conns w !! a = Some x ->
  closed (conn x) = true ->
  Call a command args w = Ok (v, e) w' ->
  v = Nil /\ e <> None /\
  exists x', conns w' !! a = Some x' /\ conn x' = conn x.
Proof.
  intros Hx Hc H.
  unfold Call, bind, time_Now_Unix in H.
  rewrite (on_conn_run a (fun x => Ok tt (set_lastActiveTime (now w / 1000000000) x))
             w x tt _ Hx eq_refl) in H.
  set (xt := set_lastActiveTime (now w / 1000000000) x) in *.
  unfold load in H. simpl conns in H. rewrite lookup_insert_eq in H.
  destruct ((match pool xt with Some ThePool => Pool_count | None => ret tt end) _)
    as [u w0| |] eqn:E0; try discriminate.
  assert (exists p, w0 = mkWorld (now w) (<[a := xt]> (conns w)) p) as [p ->].
  { destruct (pool xt) as [[]|]; inversion E0; eauto. }
  clear E0.
  match type of H with (match ?m with _ => _ end) = _ =>
    destruct m as [e1 w1| |] eqn:E2 end; try discriminate.
  apply deadline_at in E2 as [-> _].
  destruct e1.
  { inversion H; subst. split; [reflexivity|]. split; [discriminate|].
    exists xt. split; [apply lookup_insert_eq|reflexivity]. }
  destruct (on_conn a (writeRequest command args) _) as [e2 w2| |] eqn:E3;
    try discriminate.
  apply on_conn_at_inv in E3 as (xw & Hw & ->).
  assert (Hcw : conn xw = conn x).
  { apply writeRequest_buffered in Hw as (buf & w0 & q & -> & _). reflexivity. }
  destruct e2.
  { inversion H; subst. split; [reflexivity|]. split; [discriminate|].
    exists xw. split; [apply lookup_insert_eq|exact Hcw]. }
  destruct (on_conn a wb_Flush _) as [e3 w3| |] eqn:E4; try discriminate.
  apply on_conn_at_inv in E4 as (xf & Hf & ->).
  assert (Hcf : conn xf = conn x /\ (e3 = None -> xf = xw)).
  { unfold wb_Flush in Hf. destruct (werr (wb xw)).
    - inversion Hf; subst. split; [exact Hcw|discriminate].
    - destruct (wbuf (wb xw)).
      + inversion Hf; subst. auto.
      + rewrite Hcw, Hc in Hf. inversion Hf; subst. split; [exact Hcw|discriminate]. }
  destruct Hcf as [Hcf Hsame].
  destruct e3.
  { inversion H; subst. split; [reflexivity|]. split; [discriminate|].
    exists xf. split; [apply lookup_insert_eq|exact Hcf]. }
  match type of H with (match ?m with _ => _ end) = _ =>
    destruct m as [e4 w4| |] eqn:E5 end; try discriminate.
  apply deadline_at in E5 as [-> _].
  destruct e4.
  { inversion H; subst. split; [reflexivity|]. split; [discriminate|].
    exists xf. split; [apply lookup_insert_eq|exact Hcf]. }
  rewrite (on_conn_at a readResponse _ _ _ xf (Nil, Some net_ErrClosed) xf) in H.
  2: { apply readResponse_closed. rewrite Hcf. exact Hc. }
  inversion H; subst. split; [reflexivity|]. split; [discriminate|].
  exists xf. split; [apply lookup_insert_eq|exact Hcf].
Qed.

(** X12: a [Call] on a connection that is closed never succeeds: if it
    returns, it returns a nil reply and an error, and nothing has been sent
    on the socket, which stays closed. *)
Theorem X12_Call_on_closed (a : nat) (command : bytes) (args : list arg)
    (w w' : World) (x : Conn) (v : value) (e : option error) :
  conns w !! a = Some x ->
  closed (conn x) = true ->
  Call a command args w = Ok (v, e) w' ->
  v = Nil /\ e <> None /\
  exists x', conns w' !! a = Some x' /\ conn x' = conn x.
Proof. apply Call_closed. Qed.

(** ** The retry loop *)

Lemma counted_idle x p : idle (counted x p) = idle p.
Proof. unfold counted. destruct (pool x) as [[]|]; reflexivity. Qed.

Lemma CallN_loop_bounds command args k : forall a r0 e0 w r w',
  CallN_loop k a command args r0 e0 w = Ok r w' ->
  exists (j : nat) popped,
    (j <= k)%nat /\
    now w' = now w + Z.of_nat j * RetryWaitSeconds /\
    idle (thePool w) = popped ++ idle (thePool w') /\
    (length popped <= j)%nat.
Proof.
  induction k as [|k IH]; intros a r0 e0 w r w' H; simpl in H.
  - inversion H; subst. exists 0%nat, []. simpl. repeat split; try lia.
  - unfold bind in H.
    destruct (Call a command args w) as [[r1 e1] w1| |] eqn:EC; try discriminate.
    apply Call_world in EC as (x & x1 & Hx & -> & _).
    destruct (transport_failure e1).
    + unfold time_Sleep, Close in H. simpl in H.
      match type of H with (match ?m with _ => _ end) = _ =>
        destruct m as [u w2| |] eqn:E2 end; try discriminate.
      apply on_conn_inv in E2 as (y & y' & _ & _ & ->). simpl in H.
      unfold load in H. simpl in H.
      destruct (<[a := y']> _ !! a) as [z|]; [|discriminate].
      destruct (pool z) as [[]|].
      * unfold Pool_Pop in H. simpl in H. rewrite counted_idle in H.
        destruct (idle (thePool w)) as [|c' rest] eqn:Ei.
        -- inversion H; subst. simpl. rewrite counted_idle, Ei.
           exists 1%nat, []. simpl. repeat split; try lia.
        -- apply IH in H as (j & popped & Hj & Hn & Hi & Hl). simpl in *.
           exists (S j), (c' :: popped). simpl. rewrite Hi.
           repeat split; try lia.
      * inversion H; subst. simpl. rewrite counted_idle.
        exists 1%nat, []. simpl. repeat split; try lia.
    + apply IH in H as (j & popped & Hj & Hn & Hi & Hl). simpl in *.
      rewrite counted_idle in Hi.
      exists j, popped. repeat split; try lia. exact Hi.
Qed.

(** X13: a [CallN] that returns has slept a whole number [j] of retry
    waits, with [j] at most the number of attempts allowed, and has taken at
    most [j] connections from the front of the pool; it puts none back. *)
Theorem X13_CallN_bounds (a : nat) (retry : Z) (command : bytes) (args : list arg)
    (w w' : World) (r : value * option error) :
  CallN a retry command args w = Ok r w' ->
  exists (j : Z) popped,
    0 <= j <= Z.max 0 retry /\
    now w' = now w + j * RetryWaitSeconds /\
    idle (thePool w) = popped ++ idle (thePool w') /\
    len popped <= j.
Proof.
  unfold CallN. intros H.
  apply CallN_loop_bounds in H as (j & popped & Hj & Hn & Hi & Hl).
  exists (Z.of_nat j), popped. unfold len. repeat split; try lia. exact Hi.
Qed.

(** X14: when the first attempt of [CallN] fails with an error that does
    not carry [CommonError:] and no other connection is to be had (the
    connection has no pool, or the pool holds none), [CallN] returns a nil
    reply with that error after one attempt, having slept one retry wait and
    closed the connection. *)
Theorem X14_CallN_without_replacement (a : nat) (retry : Z) (command : bytes)
    (args : list arg) (w w1 : World) (x1 : Conn) (r : value) (e : option error) :
  0 < retry ->
  Call a command args w = Ok (r, e) w1 ->
  transport_failure e = true ->
  conns w1 !! a = Some x1 ->
  pool x1 = None \/ idle (thePool w1) = [] ->
  CallN a retry command args w
  = Ok (Nil, e)
       (mkWorld (now w1 + RetryWaitSeconds)
                (<[a := closed_conn x1]> (conns w1)) (thePool w1)).
Proof.
  intros Hr HC Ht Hx Hp. unfold CallN.
  destruct (Z.to_nat retry) as [|k] eqn:Ek; [lia|].
  simpl. unfold bind. rewrite HC, Ht.
  unfold time_Sleep, Close, on_conn, load. simpl. rewrite Hx. simpl.
  rewrite lookup_insert_eq. simpl.
  destruct (pool x1) as [[]|].
  - destruct Hp as [Hp|Hp]; [discriminate|].
    unfold Pool_Pop. simpl. rewrite Hp. reflexivity.
  - reflexivity.
Qed.

(** ** Pipelines *)

Lemma PipeSend_all_spec cmds : forall c,
  len (buffer c) = DefaultBufferSize -> werr (wb c) = None ->
  min_int64 <= pipeCount c -> pipeCount c + len cmds <= max_int64 ->
  Forall request_fits cmds ->
  exists buf',
    PipeSend_all cmds c
    = Ok None (set_pipeCount (pipeCount c + len cmds) (wrote buf' (requests cmds) c)) /\
    len buf' = DefaultBufferSize.
Proof.
  induction cmds as [|[command args] cmds IH]; intros c Hb Hw Hlo Hhi Hf.
  - exists (buffer c). split; [|exact Hb].
    destruct c as [? ? ? ? ? [? ?] ? ? ?]. simpl in *. subst.
    unfold wrote, requests. simpl. rewrite app_nil_r, Z.add_0_r. reflexivity.
  - inversion Hf as [|? ? (Hc & Hn & Ha) Hf']; subst. simpl in Hc, Hn, Ha.
    assert (Hl : len ((command, args) :: cmds) = 1 + len cmds)
      by (unfold len; simpl length; lia).
    rewrite Hl in *.
    assert (0 <= len cmds) by (unfold len; lia).
    cbn [PipeSend_all]. unfold bind at 1. unfold PipeSend, bind, get, put.
    rewrite wrap64_id by (unfold min_int64, max_int64 in *; lia).
    destruct (writeRequest_spec command args (set_pipeCount (pipeCount c + 1) c))
      as (b1 & Hrun & Hl1); auto.
    rewrite Hrun.
    destruct (IH (wrote b1 (request command args) (set_pipeCount (pipeCount c + 1) c)))
      as (b2 & Hrun2 & Hl2); auto.
    + simpl. lia.
    + simpl. lia.
    + exists b2. split; [|exact Hl2]. rewrite Hrun2, wrote_wrote.
      cbn [pipeCount wrote set_wb set_buffer set_pipeCount].
      replace (pipeCount c + (1 + len cmds)) with (pipeCount c + 1 + len cmds) by lia.
      destruct c as [? ? ? ? ? [? ?] ? ? ?]. reflexivity.
Qed.

Lemma PipeExec_loop_decode k : forall done c vs c' e0,
  decode_n k c = Some (vs, c') ->
  PipeExec_loop k (length done) (done ++ replicate k Nil) e0 c
  = Ok (done ++ vs, match k with O => e0 | S _ => None end) c'.
Proof.
  induction k as [|k IH]; intros done c vs c' e0 H; simpl in H.
  - inversion H; subst. simpl. reflexivity.
  - destruct (readResponse c) as [[v [e|]] c1| |] eqn:ER; try discriminate.
    destruct (decode_n k c1) as [[vs' c2]|] eqn:ED; try discriminate.
    inversion H; subst. cbn [PipeExec_loop replicate]. unfold bind. rewrite ER.
    rewrite insert_app_r_alt by lia. rewrite Nat.sub_diag. cbn [insert list_insert].
    specialize (IH (done ++ [v]) c1 vs' c' None ED).
    rewrite length_app in IH. simpl in IH.
    replace (length done + 1)%nat with (S (length done)) in IH by lia.
    rewrite <- app_assoc in IH. simpl in IH. rewrite IH.
    rewrite <- app_assoc. simpl. destruct k; reflexivity.
Qed.

Lemma PipeExec_run (c c' : Conn) (n : Z) (buf' p : bytes) (vs : list value) :
  closed (conn c) = false -> 0 <= n ->
  decode_n (Z.to_nat n) c = Some (vs, c') ->
  PipeExec (set_pipeCount n (wrote buf' p c))
  = Ok (Some vs, None) (set_pipeCount 0 (after_Call (lastActiveTime c) buf' p c c')).
Proof.
  intros Hc Hn Hd.
  unfold PipeExec, bind. rewrite wb_Flush_open by (simpl; auto).
  unfold get, put. cbn [pipeCount set_wb set_conn set_pipeCount wrote set_buffer].
  destruct (Z.ltb_spec n 0); [lia|].
  match goal with |- context [PipeExec_loop _ _ _ _ ?s] => set (xl := s) end.
  assert (Hxl : xl = reader_of xl c).
  { subst xl. destruct c as [? ? ? ? [? ? ? ?] [? ?] ? ? ?]. simpl in *. subst. reflexivity. }
  rewrite Hxl.
  pose proof (decode_n_reader xl (Z.to_nat n) c) as Hr.
  rewrite Hd in Hr.
  pose proof (PipeExec_loop_decode _ [] _ _ _ None Hr) as HL.
  cbn [length app] in HL. rewrite HL.
  replace (match Z.to_nat n with O => None | S _ => None end)
    with (@None error) by (destruct (Z.to_nat _); reflexivity).
  reflexivity.
Qed.

Lemma requests_length cmds : len cmds <= len (requests cmds).
Proof.
  unfold len, requests. induction cmds as [|[command args] cmds IH]; [simpl; lia|].
  cbn [map concat fst snd]. rewrite length_app. unfold request at 1.
  cbn [length]. lia.
Qed.

(** X15: on a new connection over an open socket, requests queued with
    [PipeSend] that fit in the writer are only buffered, in the order
    queued, and counted; [PipeExec] then sends them in one piece, and when
    the input holds one reply without error for each of them, returns these
    replies in the order of the requests, with no error, leaves the bytes
    after the last reply unread, and has reset the count of pending
    requests. *)
Theorem X15_pipeline_replies_in_order (t : Z) (s : TCPConn) (ct rt wt : Z)
    (ka : bool) (pl : option PoolRef) (cmds : list (bytes * list arg))
    (vs : list value) (c' : Conn) :
  closed s = false ->
  len (requests cmds) <= bufio_size ->
  Forall request_fits cmds ->
  decode_n_lim (length cmds) (NewConn t s ct rt wt ka pl) = Some (vs, c') ->
  exists cs cf,
    PipeSend_all cmds (NewConn t s ct rt wt ka pl) = Ok None cs /\
    conn cs = s /\ wbuf (wb cs) = requests cmds /\ pipeCount cs = len cmds /\
    PipeExec cs = Ok (Some vs, None) cf /\
    length vs = length cmds /\
    sent (conn cf) = sent s ++ requests cmds /\
    wbuf (wb cf) = [] /\ pipeCount cf = 0 /\
    incoming (conn cf) = incoming (conn c').
Proof.
  intros Hc Hsize Hf Hd. apply decode_n_lim_decode_n in Hd.
  set (c := NewConn t s ct rt wt ka pl) in *.
  pose proof (requests_length cmds) as Hlen.
  assert (0 <= len cmds) by (unfold len; lia).
  destruct (PipeSend_all_spec cmds c eq_refl eq_refl) as (buf' & Hrun & _); auto.
  { simpl. unfold min_int64. lia. }
  { simpl. unfold bufio_size, max_int64 in *. lia. }
  simpl pipeCount in Hrun. rewrite Z.add_0_l in Hrun.
  eexists. eexists. split; [exact Hrun|].
  split; [reflexivity|]. split; [reflexivity|]. split; [reflexivity|].
  split.
  - apply PipeExec_run; [exact Hc|assumption|].
    unfold len. rewrite Nat2Z.id. exact Hd.
  - split; [exact (decode_n_length _ _ _ _ Hd)|].
    simpl. auto.
Qed.

(** ** Transactions *)

Lemma byte_eqb_eq a b : byte_eqb a b = true -> a = b.
Proof. apply Ascii.eqb_eq. Qed.

Lemma is_OK_spec b : is_OK b = true <-> b = B "OK".
Proof.
  split; [|intros ->; reflexivity].
  destruct b as [|a [|b [|? ?]]]; simpl; try discriminate.
  intros H. apply andb_prop in H as [Ha Hb].
  apply byte_eqb_eq in Ha, Hb. subst. reflexivity.
Qed.

Lemma is_QUEUED_spec b : is_QUEUED b = true <-> b = B "QUEUED".
Proof.
  split; [|intros ->; reflexivity].
  destruct b as [|a [|b [|c [|d [|e [|f [|? ?]]]]]]]; simpl; try discriminate.
  intros H. repeat (apply andb_prop in H as [H ?]).
  repeat match goal with H : byte_eqb _ _ = true |- _ => apply byte_eqb_eq in H end.
  subst. reflexivity.
Qed.

Lemma expect_None ok r :
  expect ok r = None <-> exists b, r = (Bytes b, None) /\ ok b = true.
Proof.
  split.
  - destruct r as [[| |b|] [e|]]; simpl; try discriminate.
    destruct (ok b) eqn:E; try discriminate. eauto.
  - intros (b & -> & H). simpl. rewrite H. reflexivity.
Qed.

Lemma expect_run (ok : bytes -> bool) (text : bytes) (m : M World (value * option error))
    (w w' : World) :
  (forall b, ok b = true <-> b = text) ->
  (let! r := m in ret (expect ok r)) w = Ok None w' <-> m w = Ok (Bytes text, None) w'.
Proof.
  intros Hok. unfold bind, ret. split.
  - destruct (m w) as [r w1| |]; try discriminate.
    intros H. injection H as He Hw. subst.
    apply expect_None in He as (b & -> & Hb). apply Hok in Hb. subst. reflexivity.
  - intros ->. f_equal. apply expect_None. exists text. split; [reflexivity|].
    apply Hok. reflexivity.
Qed.

(** X16: [MULTI], [Discard] and [Watch] return a nil error exactly when
    their [Call] returned the status [OK] without error, and [TransSend]
    exactly when its [Call] returned the status [QUEUED]: an error reply,
    another text and a reply of another type all give an error.  They leave
    the world as [Call] left it. *)
Theorem X16_acknowledgements (c : nat) (command : bytes) (args : list arg)
    (keys : list bytes) (w w' : World) :
  (MULTI c w = Ok None w' <-> Call c (B "MULTI") [] w = Ok (Bytes (B "OK"), None) w') /\
  (Discard c w = Ok None w' <-> Call c (B "DISCARD") [] w = Ok (Bytes (B "OK"), None) w') /\
  (TransSend c command args w = Ok None w'
     <-> Call c command args w = Ok (Bytes (B "QUEUED"), None) w') /\
  (Watch c keys w = Ok None w'
     <-> Call c (B "WATCH") (replicate (length keys) ANil) w
         = Ok (Bytes (B "OK"), None) w').
Proof.
  split; [|split; [|split]].
  - apply expect_run, is_OK_spec.
  - apply expect_run, is_OK_spec.
  - apply expect_run, is_QUEUED_spec.
  - unfold Watch. rewrite length_replicate, Watch_loop_id.
    apply expect_run, is_OK_spec.
Qed.

(** X17: on an open connection on which no deadline passes during the
    call, [TransExec] sends [EXEC] and decodes one reply like
    [Call]; an array reply is returned as it is, an error reply and a reply
    that decodes to nil both give [ErrNil], and a reply of any other type
    panics on the type assertion. *)
Theorem X17_TransExec_outcomes (a : nat) (w : World) (x x' : Conn)
    (v : value) (e : option error) :
  conns w !! a = Some x ->
  len (buffer x) = DefaultBufferSize -> werr (wb x) = None ->
  closed (conn x) = false -> deadline_ahead x ->
  readResponse_lim x = Ok (v, e) x' ->
  exists buf',
    TransExec a w
    = let w' := mkWorld (now w)
                  (<[a := after_Call (now w / 1000000000) buf' (request (B "EXEC") []) x x']>
                     (conns w))
                  (counted x (thePool w)) in
      match e, v with
      | Some _, _ | None, Nil => Ok (None, Some ErrNil) w'
      | None, Slice l => Ok (l, None) w'
      | None, _ => Panic "interface conversion: interface {} is not []interface {}"
      end.
Proof.
  intros Hx Hb Hw Hc _ Hr. apply readResponse_lim_Ok in Hr.
  destruct (Call_run a w x x' (B "EXEC") [] v e Hx Hb Hw Hc) as (buf' & HC); auto.
  { vm_compute. discriminate. }
  { vm_compute. discriminate. }
  exists buf'. unfold TransExec, bind. rewrite HC.
  erewrite on_conn_at by reflexivity.
  cbv zeta.
  destruct e as [e|]; [reflexivity|].
  destruct v; reflexivity.
Qed.

(** ** Closing *)

(** X18: [Close] closes the socket and changes nothing else; a [Call] on
    the connection afterwards, if it returns, returns a nil reply with an
    error, and sends nothing: the socket holds what had been sent before. *)
Theorem X18_Call_after_Close (a : nat) (command : bytes) (args : list arg)
    (w w' : World) (x : Conn) (v : value) (e : option error) :
  conns w !! a = Some x ->
  (let! _ := Close a in Call a command args) w = Ok (v, e) w' ->
  Close a w = Ok tt (mkWorld (now w) (<[a := closed_conn x]> (conns w)) (thePool w)) /\
  v = Nil /\ e <> None /\
  sent_on a w' = Some (sent (conn x)) /\ closed_on a w' = Some true.
Proof.
  intros Hx H.
  assert (HC : Close a w
               = Ok tt (mkWorld (now w) (<[a := closed_conn x]> (conns w)) (thePool w))).
  { unfold Close, on_conn. rewrite Hx. reflexivity. }
  split; [exact HC|].
  unfold bind in H. rewrite HC in H.
  eapply Call_closed in H as (-> & He & x' & Hx' & Hc);
    [|apply lookup_insert_eq|reflexivity].
  split; [reflexivity|]. split; [exact He|].
  unfold sent_on, closed_on. rewrite Hx'. simpl. rewrite Hc. split; reflexivity.
Qed.

(** ** The further properties at concrete inputs *)

Lemma X9_request_layout_witness :
  exists c',
    writeRequest (B "SET") [AString (B "k"); AString []; AInt 10] (fresh_conn [])
      = Ok None c' /\
    wbuf (wb c')
    = wbuf (wb (fresh_conn [])) ++
      "*"%char :: lenDigits 4 ++ CRLF ++
      frame (B "SET") ++ frame (B "k") ++ frame [] ++ frame (B "10") /\
    werr (wb c') = None /\ len (buffer c') = DefaultBufferSize /\
    conn c' = conn (fresh_conn []) /\ pipeCount c' = pipeCount (fresh_conn []).
Proof.
  apply (X9_request_layout (fresh_conn []) (B "SET")
           [AString (B "k"); AString []; AInt 10]); try reflexivity.
  - vm_compute. discriminate.
  - vm_compute. discriminate.
  - vm_compute. discriminate.
  - repeat constructor; vm_compute; discriminate.
Defined.

Lemma X10_Call_sends_and_decodes_witness :
  exists buf',
    Call 0 (B "INCR") INCR_k (world_one_reply (B ":7" ++ CRLF))
    = Ok (Int64 7, None)
         (mkWorld 0
            (<[0%nat := after_Call 0 buf' INCR_k_wire
                          (pooled_conn (B ":7" ++ CRLF))
                          (set_incoming [] (pooled_conn (B ":7" ++ CRLF)))]>
               (conns (world_one_reply (B ":7" ++ CRLF))))
            (mkPool 1 [])).
Proof.
  apply (X10_Call_sends_and_decodes 0 (world_one_reply (B ":7" ++ CRLF))
           (pooled_conn (B ":7" ++ CRLF))
           (set_incoming [] (pooled_conn (B ":7" ++ CRLF)))
           (B "INCR") INCR_k (Int64 7) None); try reflexivity.
  - right. vm_compute. discriminate.
  - vm_compute. discriminate.
  - vm_compute. discriminate.
  - repeat constructor; vm_compute; discriminate.
Defined.

Lemma X11_Call_keeps_witness :
  exists x x',
    conns (world_one_reply (B ":7" ++ CRLF)) !! 0%nat = Some x /\
    conns (world_after (Call 0 (B "INCR") INCR_k (world_one_reply (B ":7" ++ CRLF)))
                       (world_one_reply [])) !! 0%nat = Some x' /\
    advanced (set_lastActiveTime (now (world_one_reply (B ":7" ++ CRLF)) / 1000000000) x) x' /\
    now (world_after (Call 0 (B "INCR") INCR_k (world_one_reply (B ":7" ++ CRLF)))
                     (world_one_reply []))
    = now (world_one_reply (B ":7" ++ CRLF)) /\
    thePool (world_after (Call 0 (B "INCR") INCR_k (world_one_reply (B ":7" ++ CRLF)))
                         (world_one_reply []))
    = counted x (thePool (world_one_reply (B ":7" ++ CRLF))) /\
    forall b, b <> 0%nat ->
      conns (world_after (Call 0 (B "INCR") INCR_k (world_one_reply (B ":7" ++ CRLF)))
                         (world_one_reply [])) !! b
      = conns (world_one_reply (B ":7" ++ CRLF)) !! b.
Proof.
  apply (X11_Call_keeps 0 (B "INCR") INCR_k (world_one_reply (B ":7" ++ CRLF))
           (world_after (Call 0 (B "INCR") INCR_k (world_one_reply (B ":7" ++ CRLF)))
                        (world_one_reply []))
           (Int64 7, None)).
  vm_compute. reflexivity.
Defined.

Lemma X12_Call_on_closed_witness :
  @Nil = Nil /\ Some net_ErrClosed <> None /\
  exists x',
    conns (world_after (Call 0 (B "INCR") INCR_k world_closed) world_closed) !! 0%nat
      = Some x' /\
    conn x' = conn (closed_conn (pooled_conn [])).
Proof.
  apply (X12_Call_on_closed 0 (B "INCR") INCR_k world_closed
           (world_after (Call 0 (B "INCR") INCR_k world_closed) world_closed)
           (closed_conn (pooled_conn [])) Nil (Some net_ErrClosed));
    vm_compute; reflexivity.
Defined.

Lemma X13_CallN_bounds_witness :
  exists (j : Z) popped,
    0 <= j <= Z.max 0 2 /\
    now (world_after (CallN 0 2 (B "INCR") INCR_k world_EOF_then_reply) world_closed)
    = now world_EOF_then_reply + j * RetryWaitSeconds /\
    idle (thePool world_EOF_then_reply)
    = popped ++
      idle (thePool (world_after (CallN 0 2 (B "INCR") INCR_k world_EOF_then_reply)
                                 world_closed)) /\
    len popped <= j.
Proof.
  apply (X13_CallN_bounds 0 2 (B "INCR") INCR_k world_EOF_then_reply
           (world_after (CallN 0 2 (B "INCR") INCR_k world_EOF_then_reply) world_closed)
           (Bytes (B "B"), None)).
  vm_compute. reflexivity.
Defined.

Lemma X14_CallN_without_replacement_witness :
  CallN 0 3 (B "INCR") INCR_k world_EOF
  = Ok (Nil, Some io_EOF)
       (mkWorld (now (world_after (Call 0 (B "INCR") INCR_k world_EOF) world_EOF)
                 + RetryWaitSeconds)
          (<[0%nat := closed_conn
                        (default (fresh_conn [])
                           (conns (world_after (Call 0 (B "INCR") INCR_k world_EOF)
                                               world_EOF) !! 0%nat))]>
             (conns (world_after (Call 0 (B "INCR") INCR_k world_EOF) world_EOF)))
          (thePool (world_after (Call 0 (B "INCR") INCR_k world_EOF) world_EOF))).
Proof.
  apply (X14_CallN_without_replacement 0 3 (B "INCR") INCR_k world_EOF
           (world_after (Call 0 (B "INCR") INCR_k world_EOF) world_EOF)
           (default (fresh_conn [])
              (conns (world_after (Call 0 (B "INCR") INCR_k world_EOF) world_EOF) !! 0%nat))
           Nil (Some io_EOF)).
  - vm_compute. reflexivity.
  - vm_compute. reflexivity.
  - vm_compute. reflexivity.
  - vm_compute. reflexivity.
  - left. vm_compute. reflexivity.
Defined.

Lemma X15_pipeline_replies_in_order_witness :
  exists cs cf,
    PipeSend_all [(B "GET", [AString (B "a")]); (B "INCR", INCR_k)]
      (fresh_conn (B "+A" ++ CRLF ++ B ":2" ++ CRLF ++ B "+C" ++ CRLF))
    = Ok None cs /\
    conn cs = socket (B "+A" ++ CRLF ++ B ":2" ++ CRLF ++ B "+C" ++ CRLF) /\
    wbuf (wb cs) = requests [(B "GET", [AString (B "a")]); (B "INCR", INCR_k)] /\
    pipeCount cs = 2 /\
    PipeExec cs = Ok (Some [Bytes (B "A"); Int64 2], None) cf /\
    length [Bytes (B "A"); Int64 2]
    = length [(B "GET", [AString (B "a")]); (B "INCR", INCR_k)] /\
    sent (conn cf)
    = sent (socket (B "+A" ++ CRLF ++ B ":2" ++ CRLF ++ B "+C" ++ CRLF)) ++
      requests [(B "GET", [AString (B "a")]); (B "INCR", INCR_k)] /\
    wbuf (wb cf) = [] /\ pipeCount cf = 0 /\
    incoming (conn cf) = B "+C" ++ CRLF.
Proof.
  apply (X15_pipeline_replies_in_order 0
           (socket (B "+A" ++ CRLF ++ B ":2" ++ CRLF ++ B "+C" ++ CRLF))
           ConnectTimeout ReadTimeout WriteTimeout true None
           [(B "GET", [AString (B "a")]); (B "INCR", INCR_k)]
           [Bytes (B "A"); Int64 2]
           (set_incoming (B "+C" ++ CRLF)
              (fresh_conn (B "+A" ++ CRLF ++ B ":2" ++ CRLF ++ B "+C" ++ CRLF))));
    try reflexivity.
  - vm_compute. discriminate.
  - repeat constructor; vm_compute; discriminate.
Defined.

Lemma X17_TransExec_outcomes_witness :
  exists buf',
    TransExec 0 (world_one_reply (B "*1" ++ CRLF ++ B ":7" ++ CRLF))
    = Ok (Some [Int64 7], None)
         (mkWorld 0
            (<[0%nat := after_Call 0 buf' (request (B "EXEC") [])
                          (pooled_conn (B "*1" ++ CRLF ++ B ":7" ++ CRLF))
                          (set_incoming [] (pooled_conn (B "*1" ++ CRLF ++ B ":7" ++ CRLF)))]>
               (conns (world_one_reply (B "*1" ++ CRLF ++ B ":7" ++ CRLF))))
            (mkPool 1 [])).
Proof.
  apply (X17_TransExec_outcomes 0 (world_one_reply (B "*1" ++ CRLF ++ B ":7" ++ CRLF))
           (pooled_conn (B "*1" ++ CRLF ++ B ":7" ++ CRLF))
           (set_incoming [] (pooled_conn (B "*1" ++ CRLF ++ B ":7" ++ CRLF)))
           (Slice (Some [Int64 7])) None); try reflexivity.
  right. vm_compute. discriminate.
Defined.

Lemma X18_Call_after_Close_witness :
  Close 0 (world_one_reply (B ":7" ++ CRLF))
  = Ok tt (mkWorld (now (world_one_reply (B ":7" ++ CRLF)))
             (<[0%nat := closed_conn (pooled_conn (B ":7" ++ CRLF))]>
                (conns (world_one_reply (B ":7" ++ CRLF))))
             (thePool (world_one_reply (B ":7" ++ CRLF)))) /\
  @Nil = Nil /\ Some net_ErrClosed <> None /\
  sent_on 0 (world_after ((let! _ := Close 0 in Call 0 (B "INCR") INCR_k)
                            (world_one_reply (B ":7" ++ CRLF))) world_closed)
  = Some (sent (conn (pooled_conn (B ":7" ++ CRLF)))) /\
  closed_on 0 (world_after ((let! _ := Close 0 in Call 0 (B "INCR") INCR_k)
                              (world_one_reply (B ":7" ++ CRLF))) world_closed)
  = Some true.
Proof.
  apply (X18_Call_after_Close 0 (B "INCR") INCR_k (world_one_reply (B ":7" ++ CRLF))
           (world_after ((let! _ := Close 0 in Call 0 (B "INCR") INCR_k)
                           (world_one_reply (B ":7" ++ CRLF))) world_closed)
           (pooled_conn (B ":7" ++ CRLF)) Nil (Some net_ErrClosed));
    vm_compute; reflexivity.
Defined.
